(** * Retry and polling helpers of [tests/playwright-utils.ts]

    A shallow embedding of [waitFor] and [reliableAction] over an ideal,
    deterministic clock.  The caller-supplied closures ([cb], [action],
    [verify]) are state-passing functions over an arbitrary world; awaiting
    them advances the clock by the time they take to settle. *)

From Stdlib Require Import ZArith List String Bool Lia Sorted.
Import ListNotations.
Open Scope Z_scope.

(** ** JavaScript runtime: thrown values, timers, template literals *)

Module Runtime.

(** A template literal as written: its pieces of text and the numbers it
    interpolates.  [Number n] stands for whatever [`${n}`] prints for the
    number [n]; how a number prints is left to the platform. *)
Inductive piece : Type :=
| Text (s : string)
| Number (n : Z).

Definition template : Type := list piece.

(** Values that travel through [throw].  [Raised] stands for whatever a
    caller-supplied closure threw (the tag is its identity); [NewError] and
    [NewErrorFrom] are [Error] objects allocated by the helpers themselves,
    with [new Error(message)] for a string and for a template literal,
    hence never identical to a [Raised] one. *)
Inductive exn : Type :=
| Raised (tag : nat)
| NewError (message : string)
| NewErrorFrom (message : template).

(** How an awaited promise settles. *)
Inductive settled (A : Type) : Type :=
| Fulfilled (a : A)
| Rejected (e : exn).
Arguments Fulfilled {A} a.
Arguments Rejected {A} e.

(** Node's timers coerce a delay outside [1 .. 2^31-1] to 1 ms. *)
Definition TIMEOUT_MAX : Z := 2147483647.

Definition timer_delay (ms : Z) : Z :=
  if (1 <=? ms) && (ms <=? TIMEOUT_MAX) then ms else 1.

(** [x = d] in a destructuring pattern: the default applies when the
    property is absent. *)
Definition or_default {A : Type} (o : option A) (d : A) : A :=
  match o with Some a => a | None => d end.

(** The settled result and the duration of one call of a closure. *)
Definition observed {A W : Type} (c : settled A * N * W) : settled A * N :=
  fst c.

End Runtime.
Import Runtime.

(** ** A small monad for asynchronous code

    A computation runs on a machine state [S] and either returns, throws,
    awaits a promise that never settles ([Pending]), or exhausts the fuel of
    a loop ([OutOfFuel], shown unreachable below). *)

Module Async.

Inductive outcome (A : Type) : Type :=
| Ret (a : A)
| Throw (e : exn)
| Pending
| OutOfFuel.
Arguments Ret {A} a.
Arguments Throw {A} e.
Arguments Pending {A}.
Arguments OutOfFuel {A}.

Definition M (S A : Type) : Type := S -> outcome A * S.

Definition ret {S A} (a : A) : M S A := fun s => (Ret a, s).

Definition throw {S A} (e : exn) : M S A := fun s => (Throw e, s).

Definition out_of_fuel {S A} : M S A := fun s => (OutOfFuel, s).

Definition bind {S A B} (m : M S A) (k : A -> M S B) : M S B :=
  fun s =>
    match m s with
    | (Ret a, s') => k a s'
    | (Throw e, s') => (Throw e, s')
    | (Pending, s') => (Pending, s')
    | (OutOfFuel, s') => (OutOfFuel, s')
    end.

(** [try { m } catch (e) { h e }] *)
Definition try_catch {S A} (m : M S A) (h : exn -> M S A) : M S A :=
  fun s =>
    match m s with
    | (Throw e, s') => h e s'
    | r => r
    end.

(** [new Promise(async (resolve) => { m })]: the executor's own promise is
    dropped, so a rejection inside it settles nothing. *)
Definition promise_of_async_executor {S A} (m : M S A) : M S A :=
  fun s =>
    match m s with
    | (Throw _, s') => (Pending, s')
    | r => r
    end.

End Async.
Import Async.

Notation "x <- m ;; k" := (bind m (fun x => k))
  (at level 61, m at next level, right associativity).
Notation "m ;; k" := (bind m (fun _ => k))
  (at level 61, right associativity).

(** ** [reliableAction] *)

Module Reliable.

Record RetryOptions : Type := {
  maxAttempts : option Z;
  actionInterval : option Z;
  verifyInterval : option Z;
  timeout : option Z;
  actionName : option string
}.

Inductive timer_kind : Type := Settle | PollGap | ActionGap.

(** What an observer of one call sees, in order.  Every entry carries the
    loop index [i] of the iteration that produced it. *)
Inductive event : Type :=
| ConsoleDebug (i : Z) (line : template)
| ActionCall (i : Z) (at_ : Z) (took : N) (r : settled unit)
| VerifyCall (i : Z) (at_ : Z) (took : N) (r : settled bool)
| TimerWait (i : Z) (k : timer_kind) (ms : Z).

Definition attempt_of (ev : event) : Z :=
  match ev with
  | ConsoleDebug i _ | ActionCall i _ _ _ | VerifyCall i _ _ _
  | TimerWait i _ _ => i
  end.

Section Executor.

(** The world the closures act on, and the closures: given the world and
    the instant of the call, how the promise settles, how long that
    takes, and the world afterwards. *)
Variable W : Type.
Variable action : W -> Z -> settled unit * N * W.
Variable verify : W -> Z -> settled bool * N * W.

Record machine : Type := {
  world : W;
  now : Z;
  log : list event
}.

(** [`attempt ${i + 1}`] *)
Definition debug_line (i : Z) : template :=
  [Text "attempt "; Number (i + 1)].

(** The machine once a closure called now has settled after [d] ms. *)
Definition settle (st : machine) (d : N) (w' : W) (ev : event) : machine :=
  {| world := w'; now := now st + Z.of_N d; log := log st ++ [ev] |}.

(** The machine once a timer armed now for [ms] has fired. *)
Definition fire (st : machine) (i : Z) (k : timer_kind) (ms : Z) : machine :=
  {| world := world st; now := now st + timer_delay ms;
     log := log st ++ [TimerWait i k ms] |}.

Definition clock : M machine Z := fun st => (Ret (now st), st).

Definition console_debug (i : Z) : M machine unit := fun st =>
  (Ret tt,
   {| world := world st; now := now st;
      log := log st ++ [ConsoleDebug i (debug_line i)] |}).

Definition call_action (i : Z) : M machine unit := fun st =>
  let '(r, d, w') := action (world st) (now st) in
  let st' := settle st d w' (ActionCall i (now st) d r) in
  match r with
  | Fulfilled _ => (Ret tt, st')
  | Rejected e => (Throw e, st')
  end.

Definition call_verify (i : Z) : M machine bool := fun st =>
  let '(r, d, w') := verify (world st) (now st) in
  let st' := settle st d w' (VerifyCall i (now st) d r) in
  match r with
  | Fulfilled b => (Ret b, st')
  | Rejected e => (Throw e, st')
  end.

(** [await new Promise((r) => setTimeout(r, ms))] *)
Definition await_timer (i : Z) (k : timer_kind) (ms : Z) : M machine unit :=
  fun st => (Ret tt, fire st i k ms).

(** Modelled from the spec: [sleep] of [#app/utils/misc.tsx], which is not
    part of the sources at hand; the spec has the executor "wait"
    [actionInterval] and poll "every [verifyInterval]" through
    non-blocking timers, so [sleep(ms)] is a timer of [ms]. *)
Definition sleep (i : Z) (k : timer_kind) (ms : Z) : M machine unit :=
  await_timer i k ms.

Variable options : RetryOptions.

Definition max_attempts : Z := or_default (maxAttempts options) 3.
Definition action_interval : Z := or_default (actionInterval options) 100.
Definition verify_interval : Z := or_default (verifyInterval options) 50.
Definition timeout_ms : Z := or_default (timeout options) 1000.
Definition action_name : string :=
  or_default (actionName options) "action"%string.

(** The [while (!timedout)] loop.  [timedout] is the flag the timer armed
    at the start of the promise sets at [deadline]; it is read on entry
    (just after arming, hence [false]) and after every [sleep].  Timers
    due at the same instant run in the order they were armed, and the
    flag's timer is armed before any [sleep] of the loop. *)
Fixpoint poll (fuel : nat) (i deadline : Z) (timedout : bool)
  : M machine bool :=
  if timedout then ret false
  else
    match fuel with
    | O => out_of_fuel
    | S fuel' =>
        ok <- call_verify i ;;
        if ok then ret true
        else
          sleep i PollGap verify_interval ;;
          t <- clock ;;
          poll fuel' i deadline (deadline <=? t)
    end.

Definition verifyPromise (i : Z) : M machine bool :=
  t0 <- clock ;;
  promise_of_async_executor
    (poll (Z.to_nat (timer_delay timeout_ms)) i
          (t0 + timer_delay timeout_ms) false).

(** How one iteration of the [for] body ends when it neither throws nor
    hangs: [return] from the function, or fall through to [i++]. *)
Inductive completion : Type := Returned | Next.

Definition attempt (i : Z) : M machine completion :=
  let isLastAttempt := i =? max_attempts - 1 in
  c <- try_catch
         (console_debug i ;;
          call_action i ;;
          await_timer i Settle 50 ;;
          confirmed <- verifyPromise i ;;
          if confirmed then ret Returned else ret Next)
         (fun e => if isLastAttempt then throw e else ret Next) ;;
  match c with
  | Returned => ret Returned
  | Next =>
      (if negb isLastAttempt then sleep i ActionGap action_interval
       else ret tt) ;;
      ret Next
  end.

(** [`Failed to perform ${actionName} after ${maxAttempts} attempts`] *)
Definition exhausted_message : template :=
  [Text "Failed to perform "; Text action_name; Text " after ";
   Number max_attempts; Text " attempts"].

Fixpoint for_loop (fuel : nat) (i : Z) : M machine unit :=
  if i <? max_attempts then
    match fuel with
    | O => out_of_fuel
    | S fuel' =>
        c <- attempt i ;;
        match c with
        | Returned => ret tt
        | Next => for_loop fuel' (i + 1)
        end
    end
  else throw (NewErrorFrom exhausted_message).

Definition reliableAction : M machine unit :=
  for_loop (Z.to_nat max_attempts) 0.

Definition start (w : W) (t : Z) : machine :=
  {| world := w; now := t; log := [] |}.

End Executor.

Arguments world {W} _.
Arguments now {W} _.
Arguments log {W} _.

End Reliable.

(** ** [waitFor] *)

Module Polling.

(** The values a probe can hand back, as far as truthiness goes. *)
Inductive jsval : Type :=
| JUndefined
| JNull
| JBool (b : bool)
| JNumber (n : Z)
| JString (s : string)
| JObject (id : nat).

(** [if (response)] *)
Definition truthy (v : jsval) : bool :=
  match v with
  | JUndefined | JNull => false
  | JBool b => b
  | JNumber n => negb (n =? 0)
  | JString s => negb (String.eqb s EmptyString)
  | JObject _ => true
  end.

Record WaitOptions : Type := {
  errorMessage : option string;
  timeout : option Z
}.

Inductive event : Type :=
| ProbeCall (at_ : Z) (took : N) (r : settled jsval)
| TimerWait (ms : Z).

Section WaitFor.

Variable W : Type.
Variable cb : W -> Z -> settled jsval * N * W.

Record machine : Type := {
  world : W;
  now : Z;
  log : list event
}.

(** [Date.now()] *)
Definition date_now : M machine Z := fun st => (Ret (now st), st).

(** The machine once a probe called now has settled after [d] ms. *)
Definition settle (st : machine) (d : N) (w' : W) (r : settled jsval)
  : machine :=
  {| world := w'; now := now st + Z.of_N d;
     log := log st ++ [ProbeCall (now st) d r] |}.

(** The machine once a timer armed now for [ms] has fired. *)
Definition fire (st : machine) (ms : Z) : machine :=
  {| world := world st; now := now st + timer_delay ms;
     log := log st ++ [TimerWait ms] |}.

Definition call_cb : M machine jsval := fun st =>
  let '(r, d, w') := cb (world st) (now st) in
  match r with
  | Fulfilled v => (Ret v, settle st d w' r)
  | Rejected e => (Throw e, settle st d w' r)
  end.

(** [await new Promise((r) => setTimeout(r, ms))] *)
Definition await_timer (ms : Z) : M machine unit := fun st =>
  (Ret tt, fire st ms).

(** How the [try] block of one round ends: [return response], or on to
    the timer with the current [lastError]. *)
Inductive round : Type :=
| Found (response : jsval)
| Again (lastError : exn).

Fixpoint loop (fuel : nat) (endTime : Z) (lastError : exn)
  : M machine jsval :=
  t <- date_now ;;
  if t <? endTime then
    match fuel with
    | O => out_of_fuel
    | S fuel' =>
        r <- try_catch
               (response <- call_cb ;;
                if truthy response then ret (Found response)
                else ret (Again lastError))
               (fun e => ret (Again e)) ;;
        match r with
        | Found response => ret response
        | Again lastError' =>
            await_timer 100 ;;
            loop fuel' endTime lastError'
        end
    end
  else throw lastError.

Variable options : WaitOptions.

Definition timeout_ms : Z := or_default (timeout options) 5000.

(** [new Error(errorMessage)]; an absent message gives the empty one. *)
Definition fallback : exn :=
  NewError (or_default (errorMessage options) EmptyString).

Definition waitFor : M machine jsval :=
  t <- date_now ;;
  loop (Z.to_nat timeout_ms) (t + timeout_ms) fallback.

Definition start (w : W) (t : Z) : machine :=
  {| world := w; now := t; log := [] |}.

End WaitFor.

Arguments world {W} _.
Arguments now {W} _.
Arguments log {W} _.

(** The error [waitFor] holds in [lastError] after the calls of a log. *)
Definition last_thrown (l : list event) (init : exn) : exn :=
  fold_left (fun acc ev =>
               match ev with
               | ProbeCall _ _ (Rejected e) => e
               | _ => acc
               end) l init.

Definition is_truthy_return (ev : event) : bool :=
  match ev with
  | ProbeCall _ _ (Fulfilled v) => truthy v
  | _ => false
  end.

Definition is_throw (ev : event) : bool :=
  match ev with
  | ProbeCall _ _ (Rejected _) => true
  | _ => false
  end.

Section Shapes.

Variable W : Type.
Variable cb : W -> Z -> settled jsval * N * W.

(** A logged call shows what the probe really answered somewhere. *)
Definition genuine (ev : event) : Prop :=
  match ev with
  | ProbeCall t d r => exists w, observed (cb w t) = (r, d)
  | TimerWait _ => True
  end.

(** The entries of the rounds from instant [t] on, entered with
    [lastError], and how the call ends. *)
Inductive wait_shape (endTime : Z)
  : Z -> exn -> list event -> outcome jsval -> Prop :=
| ws_deadline t lastError :
    endTime <= t ->
    wait_shape endTime t lastError [] (Throw lastError)
| ws_found t lastError d v :
    t < endTime -> truthy v = true ->
    wait_shape endTime t lastError [ProbeCall t d (Fulfilled v)] (Ret v)
| ws_falsy t lastError d v rest r :
    t < endTime -> truthy v = false ->
    wait_shape endTime (t + Z.of_N d + 100) lastError rest r ->
    wait_shape endTime t lastError
      (ProbeCall t d (Fulfilled v) :: TimerWait 100 :: rest) r
| ws_threw t lastError d e rest r :
    t < endTime ->
    wait_shape endTime (t + Z.of_N d + 100) e rest r ->
    wait_shape endTime t lastError
      (ProbeCall t d (Rejected e) :: TimerWait 100 :: rest) r.

End Shapes.

End Polling.

(** ** Reading a log of [reliableAction] *)

Module Trace.
Import Reliable.

Definition is_action (ev : event) : bool :=
  match ev with ActionCall _ _ _ _ => true | _ => false end.

Definition is_action_of (i : Z) (ev : event) : bool :=
  match ev with ActionCall j _ _ _ => j =? i | _ => false end.

Definition is_verify_of (i : Z) (ev : event) : bool :=
  match ev with VerifyCall j _ _ _ => j =? i | _ => false end.

(** Number of [action()] invocations in a log. *)
Definition action_calls (l : list event) : nat :=
  List.length (filter is_action l).

(** Number of [action()] invocations made by iteration [i]. *)
Definition action_calls_of (i : Z) (l : list event) : nat :=
  List.length (filter (is_action_of i) l).

(** Number of [verify()] polls made by iteration [i]. *)
Definition verify_calls_of (i : Z) (l : list event) : nat :=
  List.length (filter (is_verify_of i) l).

Section Shapes.

Variable W : Type.
Variable action : W -> Z -> settled unit * N * W.
Variable verify : W -> Z -> settled bool * N * W.
Variable options : RetryOptions.

(** A logged call shows what the closure really answered somewhere. *)
Definition genuine (ev : event) : Prop :=
  match ev with
  | ActionCall _ t d r => exists w, observed (action w t) = (r, d)
  | VerifyCall _ t d r => exists w, observed (verify w t) = (r, d)
  | _ => True
  end.

(** The events of one verification promise whose first poll is at [t]
    and whose flag is raised at [deadline], with how its body ends. *)
Inductive poll_shape (i deadline : Z)
  : Z -> list event -> outcome bool -> Prop :=
| ps_confirmed t d :
    poll_shape i deadline t [VerifyCall i t d (Fulfilled true)] (Ret true)
| ps_rejected t d e :
    poll_shape i deadline t [VerifyCall i t d (Rejected e)] (Throw e)
| ps_timed_out t d :
    deadline <= t + Z.of_N d + timer_delay (verify_interval options) ->
    poll_shape i deadline t
      [VerifyCall i t d (Fulfilled false);
       TimerWait i PollGap (verify_interval options)] (Ret false)
| ps_again t d t' rest r :
    t' = t + Z.of_N d + timer_delay (verify_interval options) ->
    t' < deadline ->
    poll_shape i deadline t' rest r ->
    poll_shape i deadline t
      (VerifyCall i t d (Fulfilled false)
         :: TimerWait i PollGap (verify_interval options) :: rest) r.

Definition is_last (i : Z) : bool := i =? max_attempts options - 1.

(** The wait between two attempts, skipped after the last one. *)
Definition gap (i : Z) : list event :=
  if is_last i then []
  else [TimerWait i ActionGap (action_interval options)].

(** The events of one iteration of the [for] body, with how it ends. *)
Inductive attempt_shape (i : Z)
  : list event -> outcome completion -> Prop :=
| at_action_failed_last t d e :
    is_last i = true ->
    attempt_shape i
      [ConsoleDebug i (debug_line i); ActionCall i t d (Rejected e)]
      (Throw e)
| at_action_failed t d e :
    is_last i = false ->
    attempt_shape i
      [ConsoleDebug i (debug_line i); ActionCall i t d (Rejected e);
       TimerWait i ActionGap (action_interval options)]
      (Ret Next)
| at_confirmed t d t0 p :
    poll_shape i (t0 + timer_delay (timeout_ms options)) t0 p (Ret true) ->
    attempt_shape i
      (ConsoleDebug i (debug_line i) :: ActionCall i t d (Fulfilled tt)
         :: TimerWait i Settle 50 :: p)
      (Ret Returned)
| at_verify_failed t d t0 p e :
    poll_shape i (t0 + timer_delay (timeout_ms options)) t0 p (Throw e) ->
    attempt_shape i
      (ConsoleDebug i (debug_line i) :: ActionCall i t d (Fulfilled tt)
         :: TimerWait i Settle 50 :: p)
      Pending
| at_unconfirmed t d t0 p :
    poll_shape i (t0 + timer_delay (timeout_ms options)) t0 p (Ret false) ->
    attempt_shape i
      (ConsoleDebug i (debug_line i) :: ActionCall i t d (Fulfilled tt)
         :: TimerWait i Settle 50 :: p ++ gap i)
      (Ret Next).

(** The events of the iterations from [i] on, with how the call ends. *)
Inductive run_shape : Z -> list event -> outcome unit -> Prop :=
| run_exhausted i :
    max_attempts options <= i ->
    run_shape i [] (Throw (NewErrorFrom (exhausted_message options)))
| run_returned i b :
    i < max_attempts options ->
    attempt_shape i b (Ret Returned) ->
    run_shape i b (Ret tt)
| run_thrown i b e :
    i < max_attempts options ->
    attempt_shape i b (Throw e) ->
    run_shape i b (Throw e)
| run_pending i b :
    i < max_attempts options ->
    attempt_shape i b Pending ->
    run_shape i b Pending
| run_next i b rest r :
    i < max_attempts options ->
    attempt_shape i b (Ret Next) ->
    run_shape (i + 1) rest r ->
    run_shape i (b ++ rest) r.

(** How the call ends when iteration [j], ending as [rj], is its last. *)
Definition ends (rj : outcome completion) (r : outcome unit) : Prop :=
  match rj with
  | Ret Returned => r = Ret tt
  | Throw e => r = Throw e
  | Pending => r = Pending
  | _ => False
  end.

(** What follows iteration [j] in a run: the iterations from [j + 1] on
    when it fell through, nothing otherwise. *)
Definition continues (j : Z) (rj : outcome completion)
           (post : list event) (r : outcome unit) : Prop :=
  (rj = Ret Next /\ run_shape (j + 1) post r)
  \/ (post = [] /\ ends rj r).

(** No rejected action, no poll answering anything but [false]. *)
Definition unconfirmed_entry (ev : event) : Prop :=
  match ev with
  | ActionCall _ _ _ r => r = Fulfilled tt
  | VerifyCall _ _ _ r => r = Fulfilled false
  | _ => True
  end.

(** No fulfilled action. *)
Definition failed_entry (ev : event) : Prop :=
  match ev with
  | ActionCall _ _ _ (Fulfilled _) => False
  | _ => True
  end.

End Shapes.

End Trace.

(** ** Concrete closures and policies *)

Module Scenarios.
Import Reliable.

Definition policy (attempts interval poll budget : Z) (name : option string)
  : RetryOptions :=
  {| maxAttempts := Some attempts; actionInterval := Some interval;
     verifyInterval := Some poll; timeout := Some budget;
     actionName := name |}.

(** The scenario of the specification:
    [{maxAttempts: 2, actionInterval: 10, verifyInterval: 5, timeout: 20}],
    an action that always succeeds, and a verifier that answers [true] from
    the third poll of the second attempt on.  The world counts the actions
    and the polls since the last action. *)
Definition spec_policy : RetryOptions := policy 2 10 5 20 None.

Definition counting_action (w : nat * nat) (t : Z)
  : settled unit * N * (nat * nat) :=
  (Fulfilled tt, 0%N, (S (fst w), O)).

Definition late_verify (w : nat * nat) (t : Z)
  : settled bool * N * (nat * nat) :=
  (Fulfilled (Nat.leb 2 (fst w) && Nat.leb 2 (snd w)), 0%N,
   (fst w, S (snd w))).

(** Closures over a world that counts their calls. *)
Definition steady_action (w : nat) (t : Z) : settled unit * N * nat :=
  (Fulfilled tt, 0%N, w).

Definition never_true (w : nat) (t : Z) : settled bool * N * nat :=
  (Fulfilled false, 0%N, S w).

Definition failing_action (w : nat) (t : Z) : settled unit * N * nat :=
  (Rejected (Raised w), 3%N, S w).

(** Rejects on its first call only. *)
Definition flaky_action (w : nat) (t : Z) : settled unit * N * nat :=
  (match w with O => Rejected (Raised 7) | S _ => Fulfilled tt end,
   0%N, S w).

Definition always_true (w : nat) (t : Z) : settled bool * N * nat :=
  (Fulfilled true, 0%N, w).

Definition throwing_verify (w : nat) (t : Z) : settled bool * N * nat :=
  (Rejected (Raised 99), 0%N, w).

(** Answers [false] once, then [true]; settles at once. *)
Definition true_from_second_poll (w : nat) (t : Z)
  : settled bool * N * nat :=
  (Fulfilled (Nat.leb 1 w), 0%N, S w).

(** Answers [true], but only after half a second. *)
Definition slow_true (w : nat) (t : Z) : settled bool * N * nat :=
  (Fulfilled true, 500%N, S w).

End Scenarios.

Module ProbeScenarios.
Import Polling.

Definition wait_options (message : option string) (budget : Z)
  : WaitOptions :=
  {| errorMessage := message; timeout := Some budget |}.

(** A probe that throws on every call; the world counts the calls. *)
Definition throwing_probe (w : nat) (t : Z) : settled jsval * N * nat :=
  (Rejected (Raised w), 0%N, S w).

(** [undefined] on the first two calls, then [value]. *)
Definition third_call_probe (value : jsval) (w : nat) (t : Z)
  : settled jsval * N * nat :=
  (Fulfilled (if Nat.leb 2 w then value else JUndefined), 0%N, S w).

End ProbeScenarios.

(** ** Facts about the runtime *)

Module RuntimeFacts.

Lemma timer_delay_pos ms : 1 <= timer_delay ms.
Proof.
  unfold timer_delay.
  destruct (1 <=? ms) eqn:E; simpl; [| lia].
  destruct (ms <=? TIMEOUT_MAX); lia.
Qed.

End RuntimeFacts.

(** ** Every run of [reliableAction] has a well-shaped log *)

Module ReliableShape.
Import Reliable Trace RuntimeFacts.

Section Soundness.

Variable W : Type.
Variable action : W -> Z -> settled unit * N * W.
Variable verify : W -> Z -> settled bool * N * W.
Variable options : RetryOptions.

Local Abbreviation poll := (poll W verify options).
Local Abbreviation verifyPromise := (verifyPromise W verify options).
Local Abbreviation attempt := (attempt W action verify options).
Local Abbreviation for_loop := (for_loop W action verify options).
Local Abbreviation reliableAction := (reliableAction W action verify options).
Local Abbreviation genuine := (genuine W action verify).
Local Abbreviation machine := (machine W).

Lemma poll_step fuel i deadline (st : machine) :
  poll (S fuel) i deadline false st =
  match verify (world st) (now st) with
  | (Fulfilled true, d, w') =>
      (Ret true, settle W st d w' (VerifyCall i (now st) d (Fulfilled true)))
  | (Fulfilled false, d, w') =>
      let st1 :=
        fire W (settle W st d w' (VerifyCall i (now st) d (Fulfilled false)))
             i PollGap (verify_interval options) in
      poll fuel i deadline (deadline <=? now st1) st1
  | (Rejected e, d, w') =>
      (Throw e, settle W st d w' (VerifyCall i (now st) d (Rejected e)))
  end.
Proof.
  cbn [Reliable.poll]. unfold bind, call_verify, sleep, await_timer, clock.
  destruct (verify (world st) (now st)) as [[[[|] | e] d] w']; reflexivity.
Qed.

Lemma poll_timed_out fuel i deadline (st : machine) :
  poll fuel i deadline true st = (Ret false, st).
Proof. destruct fuel; reflexivity. Qed.

Lemma poll_sound fuel : forall i deadline (st : machine),
  now st < deadline ->
  deadline - now st <= Z.of_nat fuel ->
  exists d,
    log (snd (poll fuel i deadline false st)) = log st ++ d
    /\ poll_shape options i deadline (now st) d
         (fst (poll fuel i deadline false st))
    /\ Forall genuine d.
Proof.
  induction fuel as [| fuel IH]; intros i deadline st Hlt Hfuel.
  - simpl in Hfuel. lia.
  - rewrite poll_step.
    destruct (verify (world st) (now st)) as [[r d] w'] eqn:Ev.
    assert (Hgen : genuine (VerifyCall i (now st) d r)).
    { exists (world st). unfold observed. now rewrite Ev. }
    pose proof (timer_delay_pos (verify_interval options)) as Hpos.
    destruct r as [[|] | e]; cbn zeta.
    + exists [VerifyCall i (now st) d (Fulfilled true)].
      repeat split; [constructor | now constructor].
    + set (st1 := fire W _ i PollGap _).
      assert (Hnow : now st1 =
                     now st + Z.of_N d
                     + timer_delay (verify_interval options))
        by reflexivity.
      assert (Hlog1 : log st1 =
                      log st ++ [VerifyCall i (now st) d (Fulfilled false);
                                 TimerWait i PollGap (verify_interval options)]).
      { subst st1. cbn. now rewrite <- app_assoc. }
      destruct (deadline <=? now st1) eqn:Ed.
      * rewrite poll_timed_out. apply Z.leb_le in Ed.
        eexists. split; [exact Hlog1 |].
        split; [constructor; lia |].
        repeat constructor; assumption.
      * apply Z.leb_gt in Ed.
        destruct (IH i deadline st1) as (d1 & Hlog & Hshape & Hg);
          [lia | lia |].
        exists (VerifyCall i (now st) d (Fulfilled false)
                  :: TimerWait i PollGap (verify_interval options) :: d1).
        split.
        { rewrite Hlog, Hlog1, <- app_assoc. reflexivity. }
        split.
        { eapply ps_again; [reflexivity | lia |].
          rewrite <- Hnow. exact Hshape. }
        repeat constructor; assumption.
    + exists [VerifyCall i (now st) d (Rejected e)].
      repeat split; [constructor | now constructor].
Qed.

Lemma poll_shape_outcome i deadline t d r :
  poll_shape options i deadline t d r ->
  r = Ret true \/ r = Ret false \/ exists e, r = Throw e.
Proof.
  induction 1; eauto.
Qed.

Lemma attempt_step i (st : machine) :
  attempt i st =
  let st0 := {| world := world st; now := now st;
                log := log st ++ [ConsoleDebug i (debug_line i)] |} in
  match action (world st) (now st) with
  | (Rejected e, d, w') =>
      let st1 := settle W st0 d w' (ActionCall i (now st) d (Rejected e)) in
      if is_last options i then (Throw e, st1)
      else (Ret Next, fire W st1 i ActionGap (action_interval options))
  | (Fulfilled u, d, w') =>
      let st1 :=
        fire W (settle W st0 d w' (ActionCall i (now st) d (Fulfilled u)))
             i Settle 50 in
      match poll (Z.to_nat (timer_delay (timeout_ms options))) i
                 (now st1 + timer_delay (timeout_ms options)) false st1 with
      | (Ret true, s) => (Ret Returned, s)
      | (Ret false, s) =>
          (Ret Next,
           if is_last options i then s
           else fire W s i ActionGap (action_interval options))
      | (Throw _, s) => (Pending, s)
      | (Pending, s) => (Pending, s)
      | (OutOfFuel, s) => (OutOfFuel, s)
      end
  end.
Proof.
  unfold Reliable.attempt, Reliable.verifyPromise, is_last.
  unfold bind, try_catch, promise_of_async_executor, console_debug,
    call_action, sleep, await_timer, clock, ret, throw.
  cbn [now world log].
  destruct (action (world st) (now st)) as [[[u | e] d] w'].
  - cbn [now world log settle fire].
    match goal with
    | |- context [Reliable.poll W verify options ?f i ?dl false ?s] =>
        destruct (Reliable.poll W verify options f i dl false s)
          as [[[|] | e | |] s1]
    end;
      try reflexivity;
      destruct (i =? max_attempts options - 1); reflexivity.
  - destruct (i =? max_attempts options - 1); reflexivity.
Qed.

Lemma attempt_sound i (st : machine) :
  exists b,
    log (snd (attempt i st)) = log st ++ b
    /\ attempt_shape options i b (fst (attempt i st))
    /\ Forall genuine b.
Proof.
  rewrite attempt_step. cbn zeta.
  destruct (action (world st) (now st)) as [[r d] w'] eqn:Ea.
  assert (Hgen : genuine (ActionCall i (now st) d r)).
  { exists (world st). unfold observed. now rewrite Ea. }
  destruct r as [[] | e].
  - set (st1 := fire W _ i Settle 50).
    assert (Hlog1 : log st1 =
                    log st ++ [ConsoleDebug i (debug_line i);
                               ActionCall i (now st) d (Fulfilled tt);
                               TimerWait i Settle 50]).
    { subst st1. cbn. now rewrite <- !app_assoc. }
    pose proof (timer_delay_pos (timeout_ms options)) as Hpos.
    destruct (poll_sound (Z.to_nat (timer_delay (timeout_ms options))) i
                (now st1 + timer_delay (timeout_ms options)) st1)
      as (p & Hlog & Hshape & Hg); [lia | lia |].
    destruct (poll _ i _ false st1) as [r s] eqn:Ep.
    cbn [fst snd] in Hlog, Hshape.
    assert (Hpre : Forall genuine
                     (ConsoleDebug i (debug_line i)
                        :: ActionCall i (now st) d (Fulfilled tt)
                        :: TimerWait i Settle 50 :: p))
      by (repeat constructor; assumption).
    destruct (poll_shape_outcome _ _ _ _ _ Hshape) as [-> | [-> | [e ->]]].
    + eexists. split; [cbn; rewrite Hlog, Hlog1, <- app_assoc; reflexivity |].
      split; [| exact Hpre]. cbn. eapply at_confirmed. exact Hshape.
    + exists (ConsoleDebug i (debug_line i)
                :: ActionCall i (now st) d (Fulfilled tt)
                :: TimerWait i Settle 50 :: p ++ gap options i).
      split.
      { unfold gap. destruct (is_last options i); cbn.
        - rewrite Hlog, Hlog1, app_nil_r, <- app_assoc. reflexivity.
        - rewrite Hlog, Hlog1, <- !app_assoc. reflexivity. }
      split; [cbn; eapply at_unconfirmed; exact Hshape |].
      change (Forall genuine
                ((ConsoleDebug i (debug_line i)
                    :: ActionCall i (now st) d (Fulfilled tt)
                    :: TimerWait i Settle 50 :: p) ++ gap options i)).
      apply Forall_app. split; [exact Hpre |].
      unfold gap. destruct (is_last options i); repeat constructor.
    + eexists. split; [cbn; rewrite Hlog, Hlog1, <- app_assoc; reflexivity |].
      split; [| exact Hpre]. cbn. eapply at_verify_failed. exact Hshape.
  - destruct (is_last options i) eqn:El; cbn.
    + eexists. split; [rewrite <- app_assoc; reflexivity |].
      split; [now constructor | repeat constructor; assumption].
    + eexists. split; [rewrite <- !app_assoc; reflexivity |].
      split; [now constructor | repeat constructor; assumption].
Qed.

Lemma attempt_shape_outcome i b r :
  attempt_shape options i b r ->
  r = Ret Returned \/ r = Ret Next \/ r = Pending \/ exists e, r = Throw e.
Proof.
  destruct 1; eauto.
Qed.

Lemma for_loop_step fuel i (st : machine) :
  i < max_attempts options ->
  for_loop (S fuel) i st =
  match attempt i st with
  | (Ret Returned, s) => (Ret tt, s)
  | (Ret Next, s) => for_loop fuel (i + 1) s
  | (Throw e, s) => (Throw e, s)
  | (Pending, s) => (Pending, s)
  | (OutOfFuel, s) => (OutOfFuel, s)
  end.
Proof.
  intros Hi. cbn [Reliable.for_loop].
  apply Z.ltb_lt in Hi. rewrite Hi. unfold bind.
  destruct (attempt i st) as [[[|] | e | |] s]; reflexivity.
Qed.

Lemma for_loop_exhausted fuel i (st : machine) :
  max_attempts options <= i ->
  for_loop fuel i st = (Throw (NewErrorFrom (exhausted_message options)), st).
Proof.
  intros Hi. apply Z.ltb_ge in Hi.
  destruct fuel; cbn [Reliable.for_loop]; rewrite Hi; reflexivity.
Qed.

Lemma for_loop_sound fuel : forall i (st : machine),
  max_attempts options - i <= Z.of_nat fuel ->
  exists d,
    log (snd (for_loop fuel i st)) = log st ++ d
    /\ run_shape options i d (fst (for_loop fuel i st))
    /\ Forall genuine d.
Proof.
  induction fuel as [| fuel IH]; intros i st Hfuel.
  - rewrite for_loop_exhausted by lia.
    exists []. rewrite app_nil_r.
    repeat split; [constructor; lia | constructor].
  - destruct (Z.lt_ge_cases i (max_attempts options)) as [Hi | Hi].
    + rewrite for_loop_step by exact Hi.
      destruct (attempt_sound i st) as (b & Hlog & Hshape & Hg).
      destruct (attempt i st) as [r s]. cbn [fst snd] in Hlog, Hshape.
      destruct (attempt_shape_outcome _ _ _ Hshape)
        as [-> | [-> | [-> | [e ->]]]].
      * exists b. repeat split; try assumption. now constructor.
      * destruct (IH (i + 1) s) as (d & Hlog' & Hshape' & Hg'); [lia |].
        exists (b ++ d). split; [rewrite Hlog', Hlog, app_assoc; reflexivity |].
        split; [eapply run_next; eassumption |].
        apply Forall_app. now split.
      * exists b. repeat split; try assumption. now constructor.
      * exists b. repeat split; try assumption. now constructor.
    + rewrite for_loop_exhausted by exact Hi.
      exists []. rewrite app_nil_r.
      repeat split; [constructor; lia | constructor].
Qed.

(** Every call leaves a log of whole iterations [0, 1, ...] whose shape
    matches how the call ended; in particular no loop runs out of fuel. *)
Lemma reliableAction_sound (w : W) (t : Z) :
  let r := reliableAction (start W w t) in
  run_shape options 0 (log (snd r)) (fst r)
  /\ Forall genuine (log (snd r)).
Proof.
  cbn zeta. unfold Reliable.reliableAction.
  destruct (for_loop_sound (Z.to_nat (max_attempts options)) 0 (start W w t))
    as (d & Hlog & Hshape & Hg); [lia |].
  cbn [start log] in Hlog. cbn [app] in Hlog. rewrite Hlog. now split.
Qed.

End Soundness.

End ReliableShape.

(** ** What the shapes say about a log *)

Module TraceFacts.
Import Reliable Trace RuntimeFacts.

Lemma action_calls_app a b :
  action_calls (a ++ b) = (action_calls a + action_calls b)%nat.
Proof. unfold action_calls. now rewrite filter_app, length_app. Qed.

Lemma action_calls_of_app i a b :
  action_calls_of i (a ++ b)
  = (action_calls_of i a + action_calls_of i b)%nat.
Proof. unfold action_calls_of. now rewrite filter_app, length_app. Qed.

Lemma verify_calls_of_app i a b :
  verify_calls_of i (a ++ b)
  = (verify_calls_of i a + verify_calls_of i b)%nat.
Proof. unfold verify_calls_of. now rewrite filter_app, length_app. Qed.

Lemma no_entry_no_call i l :
  Forall (fun ev => attempt_of ev <> i) l ->
  action_calls_of i l = 0%nat /\ verify_calls_of i l = 0%nat.
Proof.
  intros Hl. unfold action_calls_of, verify_calls_of.
  induction Hl as [| ev l Hev _ [IHa IHv]]; [now split |].
  cbn [filter].
  replace (is_action_of i ev) with false; [replace (is_verify_of i ev) with false |].
  - now split.
  - destruct ev; cbn in *; try reflexivity. symmetry. now apply Z.eqb_neq.
  - destruct ev; cbn in *; try reflexivity. symmetry. now apply Z.eqb_neq.
Qed.


Section Polls.

Variable options : RetryOptions.

Local Abbreviation poll_shape := (poll_shape options).

Lemma poll_tags i deadline t p r :
  poll_shape i deadline t p r ->
  Forall (fun ev => attempt_of ev = i) p.
Proof. induction 1; repeat constructor; assumption. Qed.

Lemma poll_action_calls i deadline t p r :
  poll_shape i deadline t p r -> action_calls p = 0%nat.
Proof. induction 1; try reflexivity. assumption. Qed.

Lemma poll_verify_calls_pos i deadline t p r :
  poll_shape i deadline t p r -> (1 <= verify_calls_of i p)%nat.
Proof.
  destruct 1; unfold verify_calls_of; cbn [filter is_verify_of];
    rewrite Z.eqb_refl; cbn [List.length]; lia.
Qed.

(** Every poll of the promise starts in the window [t .. deadline). *)
Lemma poll_window i deadline t p r :
  poll_shape i deadline t p r -> t < deadline ->
  forall j s d res, In (VerifyCall j s d res) p -> t <= s < deadline.
Proof.
  induction 1 as [t d | t d e | t d Hd | t d t' rest r Ht' Hlt Hrest IH];
    intros Ht j s d0 res Hin; cbn [In] in Hin.
  - destruct Hin as [[= _ <- _ _] | []]. lia.
  - destruct Hin as [[= _ <- _ _] | []]. lia.
  - destruct Hin as [[= _ <- _ _] | [[=] | []]]. lia.
  - destruct Hin as [[= _ <- _ _] | [[=] | Hin]]; [lia |].
    pose proof (timer_delay_pos (verify_interval options)).
    specialize (IH Hlt _ _ _ _ Hin). lia.
Qed.


(** A poll that answers [true] or rejects is the last entry of its
    promise and decides how the promise ends. *)
Lemma poll_decisive i deadline t p r :
  poll_shape i deadline t p r ->
  forall j s d res,
    In (VerifyCall j s d res) p -> res <> Fulfilled false ->
    (exists pre, p = pre ++ [VerifyCall j s d res])
    /\ match res with
       | Fulfilled _ => r = Ret true
       | Rejected e => r = Throw e
       end.
Proof.
  induction 1 as [t d | t d e | t d Hd | t d t' rest r Ht' Hlt Hrest IH];
    intros j s d0 res Hin Hres; cbn [In] in Hin.
  - destruct Hin as [[= <- <- <- <-] | []].
    split; [now exists [] | reflexivity].
  - destruct Hin as [[= <- <- <- <-] | []].
    split; [now exists [] | reflexivity].
  - destruct Hin as [[= _ _ _ <-] | [[=] | []]]. congruence.
  - destruct Hin as [[= _ _ _ <-] | [[=] | Hin]]; [congruence |].
    destruct (IH _ _ _ _ Hin Hres) as [[pre ->] Hr].
    split; [| exact Hr].
    now exists (VerifyCall i t d (Fulfilled false)
                  :: TimerWait i PollGap (verify_interval options) :: pre).
Qed.

(** Conversely, how the promise ends shows in its log. *)
Lemma poll_outcome_logged i deadline t p r :
  poll_shape i deadline t p r ->
  match r with
  | Ret true => exists s d, In (VerifyCall i s d (Fulfilled true)) p
  | Throw e => exists s d, In (VerifyCall i s d (Rejected e)) p
  | _ => True
  end.
Proof.
  induction 1 as [t d | t d e | t d Hd | t d t' rest r Ht' Hlt Hrest IH].
  - exists t, d. now left.
  - exists t, d. now left.
  - exact I.
  - destruct r as [[|] | e | |]; try exact I.
    + destruct IH as (s & d0 & Hin). exists s, d0. now do 2 right.
    + destruct IH as (s & d0 & Hin). exists s, d0. now do 2 right.
Qed.

(** A promise that resolves [false] ends with a poll answering [false]
    and a sleep from which the loop wakes no earlier than the deadline. *)
Lemma poll_unconfirmed_last i deadline t p :
  poll_shape i deadline t p (Ret false) ->
  exists pre s d,
    p = pre ++ [VerifyCall i s d (Fulfilled false);
                TimerWait i PollGap (verify_interval options)]
    /\ deadline <= s + Z.of_N d + timer_delay (verify_interval options).
Proof.
  remember (Ret false) as r eqn:Er.
  induction 1 as [t d | t d e | t d Hd | t d t' rest r Ht' Hlt Hrest IH];
    try discriminate.
  - exists [], t, d. now split.
  - destruct (IH Er) as (pre & s & d0 & -> & Hd).
    exists (VerifyCall i t d (Fulfilled false)
              :: TimerWait i PollGap (verify_interval options) :: pre),
      s, d0.
    now split.
Qed.

End Polls.

Section Attempts.

Variable options : RetryOptions.

Local Abbreviation attempt_shape := (attempt_shape options).
Local Abbreviation gap := (gap options).
Local Abbreviation is_last := (is_last options).
Local Abbreviation budget := (timer_delay (timeout_ms options)).

Lemma in_gap i ev :
  In ev (gap i) ->
  is_last i = false /\ ev = TimerWait i ActionGap (action_interval options).
Proof.
  unfold Trace.gap. destruct (is_last i); cbn [In]; [tauto |].
  intros [<- | []]. now split.
Qed.

Lemma gap_tags i : Forall (fun ev => attempt_of ev = i) (gap i).
Proof. unfold Trace.gap. destruct (is_last i); repeat constructor. Qed.

Lemma gap_calls i j :
  action_calls (gap i) = 0%nat /\ verify_calls_of j (gap i) = 0%nat.
Proof. unfold Trace.gap. destruct (is_last i); now split. Qed.

Lemma attempt_tags i b r :
  attempt_shape i b r -> Forall (fun ev => attempt_of ev = i) b.
Proof.
  destruct 1 as [| | ? ? ? ? Hp | ? ? ? ? ? Hp | ? ? ? ? Hp];
    repeat (constructor; [reflexivity |]); try constructor;
    try (eapply poll_tags; eassumption).
  apply Forall_app. split; [eapply poll_tags; eassumption | apply gap_tags].
Qed.

Lemma attempt_head i b r :
  attempt_shape i b r ->
  exists t d ra rest,
    b = ConsoleDebug i (debug_line i) :: ActionCall i t d ra :: rest.
Proof. destruct 1; eauto 6. Qed.

(** Exactly one [action()] per iteration. *)
Lemma attempt_action_calls i b r :
  attempt_shape i b r -> action_calls b = 1%nat.
Proof.
  destruct 1 as [| | ? ? ? ? Hp | ? ? ? ? ? Hp | ? ? ? ? Hp];
    try reflexivity.
  - change (S (action_calls p) = 1%nat).
    now rewrite (poll_action_calls _ _ _ _ _ _ Hp).
  - change (S (action_calls p) = 1%nat).
    now rewrite (poll_action_calls _ _ _ _ _ _ Hp).
  - change (S (action_calls (p ++ gap i)) = 1%nat).
    rewrite action_calls_app, (poll_action_calls _ _ _ _ _ _ Hp).
    now rewrite (proj1 (gap_calls i i)).
Qed.


(** The polls of an iteration are those of its verification promise. *)
Lemma attempt_polls i b r :
  attempt_shape i b r ->
  (forall j s d res, ~ In (VerifyCall j s d res) b)
  \/ exists pre t0 p q post,
       b = pre ++ p ++ post
       /\ poll_shape options i (t0 + budget) t0 p q
       /\ (exists ta da, In (ActionCall i ta da (Fulfilled tt)) pre)
       /\ (forall j s d res, In (VerifyCall j s d res) b ->
                             In (VerifyCall j s d res) p)
       /\ verify_calls_of i b = verify_calls_of i p
       /\ match q with
          | Ret true => r = Ret Returned /\ post = []
          | Ret false => r = Ret Next
          | Throw _ => r = Pending /\ post = []
          | _ => False
          end.
Proof.
  destruct 1 as [t d e Hl | t d e Hl | t d t0 p Hp | t d t0 p e Hp
                 | t d t0 p Hp].
  - left. intros j s d0 res [[=] | [[=] | []]].
  - left. intros j s d0 res [[=] | [[=] | [[=] | []]]].
  - right.
    exists [ConsoleDebug i (debug_line i); ActionCall i t d (Fulfilled tt);
            TimerWait i Settle 50], t0, p, (Ret true), [].
    repeat split; try assumption.
    + now rewrite app_nil_r.
    + exists t, d. cbn. tauto.
    + intros j s d0 res [[=] | [[=] | [[=] | Hin]]]. exact Hin.
  - right.
    exists [ConsoleDebug i (debug_line i); ActionCall i t d (Fulfilled tt);
            TimerWait i Settle 50], t0, p, (Throw e), [].
    repeat split; try assumption.
    + now rewrite app_nil_r.
    + exists t, d. cbn. tauto.
    + intros j s d0 res [[=] | [[=] | [[=] | Hin]]]. exact Hin.
  - right.
    exists [ConsoleDebug i (debug_line i); ActionCall i t d (Fulfilled tt);
            TimerWait i Settle 50], t0, p, (Ret false), (gap i).
    repeat split; try assumption.
    + exists t, d. cbn. tauto.
    + intros j s d0 res [[=] | [[=] | [[=] | Hin]]].
      apply in_app_or in Hin as [Hin | Hin]; [exact Hin |].
      apply in_gap in Hin as [_ [=]].
    + change (verify_calls_of i (p ++ gap i) = verify_calls_of i p).
      rewrite verify_calls_of_app, (proj2 (gap_calls i i)). lia.
Qed.

Lemma attempt_verify_after_action i b r j s d res :
  attempt_shape i b r -> In (VerifyCall j s d res) b ->
  exists ta da, In (ActionCall i ta da (Fulfilled tt)) b.
Proof.
  intros H Hin.
  destruct (attempt_polls _ _ _ H)
    as [Hno | (pre & t0 & p & q & post & -> & _ & (ta & da & Ha) & _)].
  - now apply Hno in Hin.
  - exists ta, da. apply in_or_app. now left.
Qed.

Lemma attempt_decisive i b r j s d res :
  attempt_shape i b r ->
  In (VerifyCall j s d res) b -> res <> Fulfilled false ->
  (exists pre, b = pre ++ [VerifyCall j s d res])
  /\ match res with
     | Fulfilled _ => r = Ret Returned
     | Rejected _ => r = Pending
     end.
Proof.
  intros H Hin Hres.
  destruct (attempt_polls _ _ _ H)
    as [Hno | (pre & t0 & p & q & post & -> & Hp & _ & Hinp & _ & Hq)].
  - now apply Hno in Hin.
  - apply Hinp in Hin.
    destruct (poll_decisive _ _ _ _ _ _ Hp _ _ _ _ Hin Hres)
      as [[pre' ->] Hr].
    destruct res as [v | e]; subst q; destruct Hq as [-> ->].
    + split; [| reflexivity]. exists (pre ++ pre').
      now rewrite app_nil_r, app_assoc.
    + split; [| reflexivity]. exists (pre ++ pre').
      now rewrite app_nil_r, app_assoc.
Qed.

Lemma attempt_pending_logged i b :
  attempt_shape i b Pending ->
  exists s d e, In (VerifyCall i s d (Rejected e)) b.
Proof.
  inversion 1 as [| | | t d t0 p e Hp |]; subst.
  destruct (poll_outcome_logged _ _ _ _ _ _ Hp) as (s & d0 & Hin).
  exists s, d0, e. now do 3 right.
Qed.



(** An iteration whose action rejected made no poll; it throws when it
    is the last one and otherwise waits and goes on. *)
Lemma attempt_action_rejected i b r j t d e :
  attempt_shape i b r -> In (ActionCall j t d (Rejected e)) b ->
  b = ConsoleDebug i (debug_line i) :: ActionCall i t d (Rejected e)
        :: gap i
  /\ verify_calls_of i b = 0%nat
  /\ r = (if is_last i then Throw e else Ret Next).
Proof.
  destruct 1 as [t1 d1 e1 Hl | t1 d1 e1 Hl | t1 d1 t0 p Hp
                 | t1 d1 t0 p e1 Hp | t1 d1 t0 p Hp]; intros Hin.
  - destruct Hin as [[=] | [[= <- <- <- <-] | []]].
    unfold Trace.gap. rewrite Hl. now repeat split.
  - destruct Hin as [[=] | [[= <- <- <- <-] | [[=] | []]]].
    unfold Trace.gap. rewrite Hl. now repeat split.
  - destruct Hin as [[=] | [[=] | [[=] | Hin]]].
    pose proof (poll_tags _ _ _ _ _ _ Hp) as Ht.
    exfalso. clear -Hp Hin. induction Hp; cbn [In] in Hin;
      repeat (destruct Hin as [Hin | Hin]; try discriminate); auto.
  - destruct Hin as [[=] | [[=] | [[=] | Hin]]].
    exfalso. clear -Hp Hin. induction Hp; cbn [In] in Hin;
      repeat (destruct Hin as [Hin | Hin]; try discriminate); auto.
  - destruct Hin as [[=] | [[=] | [[=] | Hin]]].
    apply in_app_or in Hin as [Hin | Hin];
      [| apply in_gap in Hin as [_ [=]]].
    exfalso. clear -Hp Hin. induction Hp; cbn [In] in Hin;
      repeat (destruct Hin as [Hin | Hin]; try discriminate); auto.
Qed.

(** With no rejected action and only [false] polls, an iteration polls
    at least once and falls through. *)
Lemma attempt_unconfirmed i b r :
  attempt_shape i b r -> Forall unconfirmed_entry b ->
  r = Ret Next /\ (1 <= verify_calls_of i b)%nat.
Proof.
  intros H Hq. rewrite Forall_forall in Hq.
  destruct H as [t d e Hl | t d e Hl | t d t0 p Hp | t d t0 p e Hp
                 | t d t0 p Hp].
  - specialize (Hq (ActionCall i t d (Rejected e))). cbn in Hq.
    discriminate Hq. tauto.
  - specialize (Hq (ActionCall i t d (Rejected e))). cbn in Hq.
    discriminate Hq. tauto.
  - destruct (poll_outcome_logged _ _ _ _ _ _ Hp) as (s & d0 & Hin).
    specialize (Hq (VerifyCall i s d0 (Fulfilled true))). cbn in Hq.
    discriminate Hq. tauto.
  - destruct (poll_outcome_logged _ _ _ _ _ _ Hp) as (s & d0 & Hin).
    specialize (Hq (VerifyCall i s d0 (Rejected e))). cbn in Hq.
    discriminate Hq. tauto.
  - split; [reflexivity |].
    change (1 <= verify_calls_of i (p ++ gap i))%nat.
    rewrite verify_calls_of_app.
    pose proof (poll_verify_calls_pos _ _ _ _ _ _ Hp). lia.
Qed.

(** With no fulfilled action, an iteration is its rejected action and,
    unless it is the last one, the wait. *)
Lemma attempt_failed i b r :
  attempt_shape i b r -> Forall failed_entry b ->
  exists t d e,
    b = ConsoleDebug i (debug_line i) :: ActionCall i t d (Rejected e)
          :: gap i
    /\ r = (if is_last i then Throw e else Ret Next).
Proof.
  intros H Hq. rewrite Forall_forall in Hq.
  destruct H as [t d e Hl | t d e Hl | t d t0 p Hp | t d t0 p e Hp
                 | t d t0 p Hp];
    try (specialize (Hq (ActionCall i t d (Fulfilled tt))); cbn in Hq;
         exfalso; tauto);
    exists t, d, e; unfold Trace.gap; rewrite Hl; now split.
Qed.

End Attempts.



Section Runs.

Variable options : RetryOptions.

Local Abbreviation run_shape := (run_shape options).
Local Abbreviation attempt_shape := (attempt_shape options).
Local Abbreviation limit := (max_attempts options).
Local Abbreviation budget := (timer_delay (timeout_ms options)).

Lemma run_tags i0 d r :
  run_shape i0 d r -> Forall (fun ev => i0 <= attempt_of ev < limit) d.
Proof.
  assert (Hblock : forall i b rb, i < limit -> attempt_shape i b rb ->
            Forall (fun ev => i <= attempt_of ev < limit) b).
  { intros i b rb Hi Hb. apply attempt_tags in Hb.
    eapply Forall_impl; [| exact Hb]. cbn. intros ev ->. lia. }
  induction 1 as [i Hi | i b Hi Hb | i b e Hi Hb | i b Hi Hb
                  | i b rest r Hi Hb Hrest IH]; eauto.
  apply Forall_app. split; [eauto |].
  eapply Forall_impl; [| exact IH]. cbn. intros ev ?. lia.
Qed.

Lemma run_outcome i0 d r :
  run_shape i0 d r -> r <> OutOfFuel.
Proof. induction 1; congruence. Qed.

Lemma run_head i0 d r :
  run_shape i0 d r -> i0 < limit ->
  exists t dt ra rest,
    d = ConsoleDebug i0 (debug_line i0) :: ActionCall i0 t dt ra :: rest.
Proof.
  destruct 1 as [i Hi | i b Hi Hb | i b e Hi Hb | i b Hi Hb
                 | i b rest r Hi Hb Hrest]; intros Hlt;
    try lia; try (eapply attempt_head; eassumption).
  destruct (attempt_head _ _ _ _ Hb) as (t & dt & ra & tl & ->).
  now exists t, dt, ra, (tl ++ rest).
Qed.


(** Around any entry, the log splits into the whole iterations before
    it, the iteration it belongs to, and what follows. *)
Lemma run_block i0 d r :
  run_shape i0 d r ->
  forall ev, In ev d ->
    exists pre b post rj,
      d = pre ++ b ++ post
      /\ In ev b
      /\ attempt_shape (attempt_of ev) b rj
      /\ i0 <= attempt_of ev < limit
      /\ Forall (fun e => attempt_of e < attempt_of ev) pre
      /\ action_calls pre = Z.to_nat (attempt_of ev - i0)
      /\ Forall (fun e => attempt_of ev < attempt_of e) post
      /\ continues options (attempt_of ev) rj post r.
Proof.
  assert (Hsingle : forall i b rb (r0 : outcome unit) ev,
            i < limit -> attempt_shape i b rb -> In ev b ->
            continues options i rb [] r0 ->
            exists pre b' post rj,
              b = pre ++ b' ++ post
              /\ In ev b'
              /\ attempt_shape (attempt_of ev) b' rj
              /\ i <= attempt_of ev < limit
              /\ Forall (fun e => attempt_of e < attempt_of ev) pre
              /\ action_calls pre = Z.to_nat (attempt_of ev - i)
              /\ Forall (fun e => attempt_of ev < attempt_of e) post
              /\ continues options (attempt_of ev) rj post r0).
  { intros i b rb r0 ev Hi Hb Hin Hc.
    pose proof (attempt_tags _ _ _ _ Hb) as Ht.
    rewrite Forall_forall in Ht. rewrite (Ht _ Hin).
    exists [], b, [], rb. rewrite app_nil_r, Z.sub_diag.
    repeat split; try assumption; try constructor; lia. }
  induction 1 as [i Hi | i b Hi Hb | i b e Hi Hb | i b Hi Hb
                  | i b rest r Hi Hb Hrest IH]; intros ev Hin.
  - destruct Hin.
  - eapply Hsingle; try eassumption. right. now split.
  - eapply Hsingle; try eassumption. right. now split.
  - eapply Hsingle; try eassumption. right. now split.
  - pose proof (attempt_tags _ _ _ _ Hb) as Ht.
    pose proof (run_tags _ _ _ Hrest) as Hr.
    apply in_app_or in Hin as [Hin | Hin].
    + rewrite Forall_forall in Ht. rewrite (Ht _ Hin).
      exists [], b, rest, (Ret Next). rewrite Z.sub_diag.
      repeat split; try assumption; try constructor; try lia.
      * eapply Forall_impl; [| exact Hr]. cbn. intros; lia.
      * now split.
    + destruct (IH _ Hin)
        as (pre & b' & post & rj & -> & Hin' & Hb' & Hj & Hpre & Hn
            & Hpost & Hc).
      exists (b ++ pre), b', post, rj.
      repeat split; try assumption; try lia.
      * now rewrite <- app_assoc.
      * apply Forall_app. split; [| exact Hpre].
        eapply Forall_impl; [| exact Ht]. cbn. intros ? ->. lia.
      * rewrite action_calls_app, Hn, (attempt_action_calls _ _ _ _ Hb).
        lia.
Qed.

(** A run in which no action rejects and every poll answers [false]
    goes through all iterations and ends exhausted. *)
Lemma run_all_unconfirmed i0 d r :
  run_shape i0 d r -> Forall unconfirmed_entry d ->
  r = Throw (NewErrorFrom (exhausted_message options))
  /\ action_calls d = Z.to_nat (limit - i0)
  /\ forall j, i0 <= j < limit -> (1 <= verify_calls_of j d)%nat.
Proof.
  induction 1 as [i Hi | i b Hi Hb | i b e Hi Hb | i b Hi Hb
                  | i b rest r Hi Hb Hrest IH]; intros Hq;
    try (destruct (attempt_unconfirmed _ _ _ _ Hb Hq); discriminate).
  - repeat split; [cbn; lia | intros; lia].
  - apply Forall_app in Hq as [Hqb Hqr].
    destruct (IH Hqr) as (-> & Hn & Hv).
    destruct (attempt_unconfirmed _ _ _ _ Hb Hqb) as [_ Hvb].
    split; [reflexivity |]. split.
    + rewrite action_calls_app, Hn, (attempt_action_calls _ _ _ _ Hb). lia.
    + intros j Hj. rewrite verify_calls_of_app.
      destruct (Z.eq_dec j i) as [-> | Hne]; [lia |].
      specialize (Hv j). lia.
Qed.

(** A run in which every action rejects goes through all iterations and
    ends by throwing what the last action threw. *)
Lemma run_all_failed i0 d r :
  run_shape i0 d r -> Forall failed_entry d -> i0 < limit ->
  action_calls d = Z.to_nat (limit - i0)
  /\ exists pre t dt e,
       d = pre ++ [ActionCall (limit - 1) t dt (Rejected e)]
       /\ r = Throw e.
Proof.
  induction 1 as [i Hi | i b Hi Hb | i b e Hi Hb | i b Hi Hb
                  | i b rest r Hi Hb Hrest IH]; intros Hq Hlt.
  - lia.
  - destruct (attempt_failed _ _ _ _ Hb Hq) as (t & dt & e & _ & Hr).
    destruct (is_last options i); discriminate.
  - destruct (attempt_failed _ _ _ _ Hb Hq) as (t & dt & e' & -> & Hr).
    unfold gap in *. destruct (is_last options i) eqn:El; [| discriminate].
    injection Hr as ->. apply Z.eqb_eq in El.
    split; [cbn; lia |].
    exists [ConsoleDebug i (debug_line i)], t, dt, e'. rewrite El.
    now split.
  - destruct (attempt_failed _ _ _ _ Hb Hq) as (t & dt & e & _ & Hr).
    destruct (is_last options i); discriminate.
  - apply Forall_app in Hq as [Hqb Hqr].
    destruct (attempt_failed _ _ _ _ Hb Hqb) as (t & dt & e & Eb & Hr).
    destruct (is_last options i) eqn:El; [discriminate |].
    apply Z.eqb_neq in El.
    destruct IH as (Hn & pre & t' & dt' & e' & -> & ->);
      [exact Hqr | lia |].
    split.
    + rewrite action_calls_app, Hn, (attempt_action_calls _ _ _ _ Hb). lia.
    + exists (b ++ pre), t', dt', e'. now rewrite <- app_assoc.
Qed.

Lemma entry_or_none (l : list event) i :
  (exists ev, In ev l /\ attempt_of ev = i)
  \/ Forall (fun ev => attempt_of ev <> i) l.
Proof.
  induction l as [| ev l [(ev' & Hin & He) | IH]].
  - right. constructor.
  - left. exists ev'. split; [now right | exact He].
  - destruct (Z.eq_dec (attempt_of ev) i) as [He | He].
    + left. exists ev. split; [now left | exact He].
    + right. now constructor.
Qed.

(** The calls of iteration [i] in a run are those of its block. *)
Lemma block_calls i pre b post :
  Forall (fun e => attempt_of e < i) pre ->
  Forall (fun e => i < attempt_of e) post ->
  action_calls_of i (pre ++ b ++ post) = action_calls_of i b
  /\ verify_calls_of i (pre ++ b ++ post) = verify_calls_of i b.
Proof.
  intros Hpre Hpost.
  destruct (no_entry_no_call i pre) as [Ha1 Hv1].
  { eapply Forall_impl; [| exact Hpre]. cbn. intros; lia. }
  destruct (no_entry_no_call i post) as [Ha2 Hv2].
  { eapply Forall_impl; [| exact Hpost]. cbn. intros; lia. }
  rewrite !action_calls_of_app, !verify_calls_of_app. lia.
Qed.





Lemma run_verify_after_action i0 d r i s dt res :
  run_shape i0 d r -> In (VerifyCall i s dt res) d ->
  exists ta da, In (ActionCall i ta da (Fulfilled tt)) d.
Proof.
  intros H Hin.
  destruct (run_block _ _ _ H _ Hin)
    as (pre & b & post & rj & -> & Hinb & Hb & _).
  cbn [attempt_of] in *.
  destruct (attempt_verify_after_action _ _ _ _ _ _ _ _ Hb Hinb)
    as (ta & da & Ha).
  exists ta, da. apply in_or_app. right. apply in_or_app. now left.
Qed.

(** A poll that answers [true] or rejects is the last entry of the run:
    the call returns, respectively never settles, right there. *)
Lemma run_decisive i0 d r i s dt res :
  run_shape i0 d r ->
  In (VerifyCall i s dt res) d -> res <> Fulfilled false ->
  (exists pre, d = pre ++ [VerifyCall i s dt res])
  /\ r = match res with Fulfilled _ => Ret tt | Rejected _ => Pending end
  /\ action_calls d = Z.to_nat (i - i0 + 1)
  /\ Forall (fun ev => attempt_of ev <= i) d
  /\ i0 <= i < limit.
Proof.
  intros H Hin Hres.
  destruct (run_block _ _ _ H _ Hin)
    as (pre & b & post & rj & -> & Hinb & Hb & Hi & Hpre & Hn & Hpost & Hc).
  cbn [attempt_of] in *.
  destruct (attempt_decisive _ _ _ _ _ _ _ _ Hb Hinb Hres) as [[pre' Eb] Hrj].
  assert (Hend : post = [] /\ ends rj r).
  { destruct Hc as [[-> _] | Hc]; [| exact Hc].
    destruct res; discriminate. }
  destruct Hend as [-> Hend]. rewrite app_nil_r.
  split; [exists (pre ++ pre'); now rewrite Eb, app_assoc |].
  split; [destruct res; subst rj; exact Hend |].
  split.
  { rewrite action_calls_app, Hn, (attempt_action_calls _ _ _ _ Hb). lia. }
  split; [| exact Hi].
  apply Forall_app. split.
  - eapply Forall_impl; [| exact Hpre]. cbn. intros; lia.
  - eapply Forall_impl; [| eapply attempt_tags; exact Hb]. cbn. intros; lia.
Qed.

Lemma run_pending_logged i0 d :
  run_shape i0 d Pending ->
  exists i s dt e, In (VerifyCall i s dt (Rejected e)) d.
Proof.
  remember (@Pending unit) as r eqn:Er.
  induction 1 as [i Hi | i b Hi Hb | i b e Hi Hb | i b Hi Hb
                  | i b rest r Hi Hb Hrest IH]; try discriminate.
  - destruct (attempt_pending_logged _ _ _ Hb) as (s & dt & e & Hin).
    now exists i, s, dt, e.
  - destruct (IH Er) as (j & s & dt & e & Hin).
    exists j, s, dt, e. apply in_or_app. now right.
Qed.

(** After a rejected action of an iteration that is not the last, the
    log goes on with the wait and the next iteration, and holds no poll
    of the failed one. *)
Lemma run_action_rejected i0 d r i ta da e :
  run_shape i0 d r ->
  In (ActionCall i ta da (Rejected e)) d -> i < limit - 1 ->
  verify_calls_of i d = 0%nat
  /\ exists pre ta' da' ra' post,
       d = pre ++ ActionCall i ta da (Rejected e)
             :: TimerWait i ActionGap (action_interval options)
             :: ConsoleDebug (i + 1) (debug_line (i + 1))
             :: ActionCall (i + 1) ta' da' ra' :: post.
Proof.
  intros H Hin Hi.
  destruct (run_block _ _ _ H _ Hin)
    as (pre & b & post & rj & -> & Hinb & Hb & _ & Hpre & _ & Hpost & Hc).
  cbn [attempt_of] in *.
  destruct (attempt_action_rejected _ _ _ _ _ _ _ _ Hb Hinb)
    as (Eb & Hv & Hrj).
  assert (El : is_last options i = false)
    by (apply Z.eqb_neq; lia).
  unfold gap in Eb. rewrite El in Eb, Hrj.
  split; [now rewrite (proj2 (block_calls _ _ _ _ Hpre Hpost)) |].
  destruct Hc as [[_ Hnext] | [_ Hends]];
    [| subst rj; contradiction].
  destruct (run_head _ _ _ Hnext) as (ta' & da' & ra' & tl & ->); [lia |].
  exists (pre ++ [ConsoleDebug i (debug_line i)]), ta', da', ra', tl.
  rewrite Eb, <- app_assoc. reflexivity.
Qed.

End Runs.

End TraceFacts.

(** ** The verification promise *)

Module PromiseFacts.
Import Reliable Trace RuntimeFacts ReliableShape TraceFacts.

Section Promise.

Variable W : Type.
Variable verify : W -> Z -> settled bool * N * W.
Variable options : RetryOptions.

Local Abbreviation poll := (poll W verify options).
Local Abbreviation verifyPromise := (verifyPromise W verify options).
Local Abbreviation budget := (timer_delay (timeout_ms options)).

Lemma verifyPromise_step i (st : machine W) :
  verifyPromise i st =
  match poll (Z.to_nat budget) i (now st + budget) false st with
  | (Throw _, s) => (Pending, s)
  | r => r
  end.
Proof. reflexivity. Qed.

(** The promise's entries, and how it settles: [true] when its last poll
    answered [true], [false] when the flag was found raised, never when
    a poll rejected. *)
Lemma verifyPromise_sound i (st : machine W) :
  exists p q,
    log (snd (verifyPromise i st)) = log st ++ p
    /\ poll_shape options i (now st + budget) (now st) p q
    /\ fst (verifyPromise i st)
       = match q with Throw _ => Pending | _ => q end.
Proof.
  rewrite verifyPromise_step.
  pose proof (timer_delay_pos (timeout_ms options)) as Hpos.
  destruct (poll_sound W (fun w _ => (Fulfilled tt, 0%N, w)) verify options
              (Z.to_nat budget) i (now st + budget) st)
    as (p & Hlog & Hshape & _); [lia | lia |].
  destruct (poll _ i _ false st) as [q s]. cbn [fst snd] in *.
  exists p, q. split; [| split; [exact Hshape |]].
  - destruct q; exact Hlog.
  - destruct q; reflexivity.
Qed.

End Promise.

End PromiseFacts.

(** ** Properties of [reliableAction] *)

Module ReliableClaims.
Import Reliable Trace RuntimeFacts ReliableShape TraceFacts PromiseFacts.
Import Scenarios.

Ltac in_log := vm_compute; repeat (first [left; reflexivity | right]).

(** Under closures that always answer alike, the logged answers are those
    answers. *)
Lemma genuine_unconfirmed W action verify (l : list event) :
  (forall w t, fst (observed (action w t)) = Fulfilled tt) ->
  (forall w t, fst (observed (verify w t)) = Fulfilled false) ->
  Forall (genuine W action verify) l -> Forall unconfirmed_entry l.
Proof.
  intros Ha Hv Hg. eapply Forall_impl; [| exact Hg].
  intros [i line | i t d r | i t d r | i k ms]; cbn; try tauto.
  - intros [w Hw]. specialize (Ha w t). now rewrite Hw in Ha.
  - intros [w Hw]. specialize (Hv w t). now rewrite Hw in Hv.
Qed.

Lemma genuine_failed W action verify (l : list event) :
  (forall w t, exists e, fst (observed (action w t)) = Rejected e) ->
  Forall (genuine W action verify) l -> Forall failed_entry l.
Proof.
  intros Ha Hg. eapply Forall_impl; [| exact Hg].
  intros [i line | i t d r | i t d r | i k ms]; cbn; try tauto.
  intros [w Hw]. destruct (Ha w t) as [e He]. rewrite Hw in He. cbn in He.
  now subst r.
Qed.

(** C1, the part that fails: a verifier that throws never returns
    [true] either, but with it the call makes one action invocation and
    one poll and then never settles: no second attempt, no error of
    exhaustion. *)
Lemma verifier_without_true_may_hang :
  let options := policy 3 10 5 20 None in
  let r := reliableAction nat steady_action throwing_verify options
             (start nat O 0) in
  (forall w t, fst (observed (steady_action w t)) = Fulfilled tt)
  /\ (forall w t, fst (observed (throwing_verify w t)) <> Fulfilled true)
  /\ fst r = Pending
  /\ action_calls (log (snd r)) = 1%nat
  /\ Z.to_nat (max_attempts options) = 3%nat.
Proof.
  cbn zeta. split; [reflexivity |]. split; [discriminate |].
  vm_compute. repeat split.
Qed.

(** C1, amended: when the action never throws and the verifier always
    answers [false] (it neither returns [true] nor throws), a call makes
    exactly [maxAttempts] action invocations, polls the verifier at least
    once in every attempt, and then throws the new error built from the
    action's name and the attempt count (not an error of the action). *)
Theorem exhausted_after_max_attempts W action verify options w t :
  (forall w t, fst (observed (action w t)) = Fulfilled tt) ->
  (forall w t, fst (observed (verify w t)) = Fulfilled false) ->
  let r := reliableAction W action verify options (start W w t) in
  fst r = Throw (NewErrorFrom [Text "Failed to perform ";
                               Text (action_name options);
                               Text " after ";
                               Number (max_attempts options);
                               Text " attempts"])
  /\ action_calls (log (snd r)) = Z.to_nat (max_attempts options)
  /\ forall i, 0 <= i < max_attempts options ->
               (1 <= verify_calls_of i (log (snd r)))%nat.
Proof.
  intros Ha Hv r.
  destruct (reliableAction_sound W action verify options w t) as [Hs Hg].
  fold r in Hs, Hg.
  apply (genuine_unconfirmed _ _ _ _ Ha Hv) in Hg.
  destruct (run_all_unconfirmed _ _ _ _ Hs Hg) as (Hr & Hn & Hp).
  rewrite Z.sub_0_r in Hn. repeat split; assumption.
Qed.

Lemma exhausted_after_max_attempts_witness :
  let r := reliableAction nat steady_action never_true
             (policy 2 10 5 20 (Some "check"%string)) (start nat O 0) in
  fst r = Throw (NewErrorFrom [Text "Failed to perform "; Text "check";
                               Text " after "; Number 2; Text " attempts"])
  /\ action_calls (log (snd r)) = 2%nat
  /\ (1 <= verify_calls_of 1 (log (snd r)))%nat.
Proof.
  destruct (exhausted_after_max_attempts nat steady_action never_true
              (policy 2 10 5 20 (Some "check"%string)) O 0)
    as (Hr & Hn & Hp); [reflexivity | reflexivity |].
  split; [exact Hr |]. split; [exact Hn |]. apply Hp. cbn. lia.
Defined.

(** C2: when every action invocation throws (and [maxAttempts] is at
    least 1), a call makes exactly [maxAttempts] action invocations and
    then throws the very value the last invocation threw. *)
Theorem last_action_error_is_thrown W action verify options w t :
  (forall w t, exists e, fst (observed (action w t)) = Rejected e) ->
  1 <= max_attempts options ->
  let r := reliableAction W action verify options (start W w t) in
  action_calls (log (snd r)) = Z.to_nat (max_attempts options)
  /\ exists pre ta da e,
       log (snd r)
       = pre ++ [ActionCall (max_attempts options - 1) ta da (Rejected e)]
       /\ fst r = Throw e.
Proof.
  intros Ha Hm r.
  destruct (reliableAction_sound W action verify options w t) as [Hs Hg].
  fold r in Hs, Hg.
  apply (genuine_failed _ _ _ _ Ha) in Hg.
  destruct (run_all_failed _ _ _ _ Hs Hg) as [Hn Hlast]; [lia |].
  rewrite Z.sub_0_r in Hn. now split.
Qed.

Lemma last_action_error_is_thrown_witness :
  let r := reliableAction nat failing_action always_true
             (policy 3 10 5 20 None) (start nat O 0) in
  action_calls (log (snd r)) = 3%nat /\ fst r = Throw (Raised 2).
Proof.
  destruct (last_action_error_is_thrown nat failing_action always_true
              (policy 3 10 5 20 None) O 0)
    as (Hn & pre & ta & da & e & Hlog & Hr).
  - intros w t. now exists (Raised w).
  - cbn. lia.
  - split; [exact Hn |]. reflexivity.
Defined.

(** C3: in every execution in which a poll of attempt [i + 1] answers
    [true], the call returns with exactly [i + 1] action invocations; that
    poll is the last entry of the log: no later poll, no later attempt. *)
Theorem confirmed_attempt_returns W action verify options w t i s d :
  let r := reliableAction W action verify options (start W w t) in
  In (VerifyCall i s d (Fulfilled true)) (log (snd r)) ->
  fst r = Ret tt
  /\ action_calls (log (snd r)) = Z.to_nat (i + 1)
  /\ (exists pre, log (snd r) = pre ++ [VerifyCall i s d (Fulfilled true)])
  /\ Forall (fun ev => attempt_of ev <= i) (log (snd r))
  /\ 0 <= i < max_attempts options.
Proof.
  intros r Hin.
  destruct (reliableAction_sound W action verify options w t) as [Hs _].
  fold r in Hs.
  destruct (run_decisive _ _ _ _ _ _ _ _ Hs Hin)
    as (Hlast & Hr & Hn & Ht & Hi); [discriminate |].
  rewrite Z.sub_0_r in Hn. repeat split; try assumption; lia.
Qed.

Lemma confirmed_attempt_returns_witness :
  let r := reliableAction (nat * nat) counting_action late_verify
             spec_policy (start (nat * nat) (O, O) 0) in
  In (VerifyCall 1 140 0 (Fulfilled true)) (log (snd r))
  /\ fst r = Ret tt
  /\ action_calls (log (snd r)) = 2%nat.
Proof.
  assert (Hin : In (VerifyCall 1 140 0 (Fulfilled true))
                   (log (snd (reliableAction (nat * nat) counting_action
                                late_verify spec_policy
                                (start (nat * nat) (O, O) 0)))))
    by in_log.
  destruct (confirmed_attempt_returns (nat * nat) counting_action
              late_verify spec_policy (O, O) 0 1 140 0%N Hin)
    as (Hr & Hn & _).
  split; [exact Hin |]. split; [exact Hr | exact Hn].
Defined.

(** C4: when the action of an attempt that is not the last throws, the
    call makes no poll in that attempt, waits [actionInterval] and starts
    the next attempt; a poll is only ever made in an attempt whose action
    was fulfilled. *)
Theorem failed_action_skips_verification
        W action verify options w t i ta da e :
  let r := reliableAction W action verify options (start W w t) in
  In (ActionCall i ta da (Rejected e)) (log (snd r)) ->
  i < max_attempts options - 1 ->
  verify_calls_of i (log (snd r)) = 0%nat
  /\ (exists pre ta' da' ra' post,
        log (snd r)
        = pre ++ ActionCall i ta da (Rejected e)
            :: TimerWait i ActionGap (action_interval options)
            :: ConsoleDebug (i + 1) (debug_line (i + 1))
            :: ActionCall (i + 1) ta' da' ra' :: post)
  /\ forall j s d res,
       In (VerifyCall j s d res) (log (snd r)) ->
       exists tj dj, In (ActionCall j tj dj (Fulfilled tt)) (log (snd r)).
Proof.
  intros r Hin Hi.
  destruct (reliableAction_sound W action verify options w t) as [Hs _].
  fold r in Hs.
  destruct (run_action_rejected _ _ _ _ _ _ _ _ Hs Hin Hi) as [Hv Hnext].
  split; [exact Hv |]. split; [exact Hnext |].
  intros j s d res Hj. eapply run_verify_after_action; eassumption.
Qed.

Lemma failed_action_skips_verification_witness :
  let r := reliableAction nat flaky_action always_true
             (policy 2 10 5 20 None) (start nat O 0) in
  In (ActionCall 0 0 0 (Rejected (Raised 7))) (log (snd r))
  /\ 0 < max_attempts (policy 2 10 5 20 None) - 1
  /\ verify_calls_of 0 (log (snd r)) = 0%nat.
Proof.
  assert (Hin : In (ActionCall 0 0 0 (Rejected (Raised 7)))
                   (log (snd (reliableAction nat flaky_action always_true
                                (policy 2 10 5 20 None) (start nat O 0)))))
    by in_log.
  assert (Hi : 0 < max_attempts (policy 2 10 5 20 None) - 1)
    by (cbn; lia).
  destruct (failed_action_skips_verification nat flaky_action always_true
              (policy 2 10 5 20 None) O 0 0 0 0%N (Raised 7) Hin Hi)
    as (Hv & _).
  split; [exact Hin |]. split; [exact Hi | exact Hv].
Defined.

(** C5, the part that fails: with [timeout] and [verifyInterval] both 50
    and a verifier that settles at once, the loop wakes from its first
    sleep at the very tick at which the flag's timer is due.  The timer,
    armed first, runs first; the promise resolves [false] although the
    verifier would answer [true] at that tick. *)
Lemma timeout_wins_the_tie :
  let options := policy 1 100 50 50 None in
  let st := start nat O 0 in
  let r := verifyPromise nat true_from_second_poll options 0 st in
  fst r = Ret false
  /\ now (snd r) = now st + timer_delay (timeout_ms options)
  /\ observed (true_from_second_poll (world (snd r)) (now (snd r)))
     = (Fulfilled true, 0%N).
Proof. vm_compute. repeat split. Qed.

(** C5, amended: a poll that answers [true] confirms the attempt however
    long it took to settle, so also when the timeout elapsed while it was
    pending or at the tick it settled; but the flag is read before every
    poll after the first, so each poll starts strictly before the tick at
    which the timer is due, and a loop that wakes at or after that tick
    resolves not confirmed without asking the verifier again. *)
Theorem pending_poll_beats_timeout W verify options i (st : machine W) :
  let r := verifyPromise W verify options i st in
  let deadline := now st + timer_delay (timeout_ms options) in
  exists p,
    log (snd r) = log st ++ p
    /\ (fst r = Ret true <->
        exists s d, In (VerifyCall i s d (Fulfilled true)) p)
    /\ (forall j s d res,
          In (VerifyCall j s d res) p -> now st <= s < deadline)
    /\ (fst r = Ret false ->
        exists pre s d,
          p = pre ++ [VerifyCall i s d (Fulfilled false);
                      TimerWait i PollGap (verify_interval options)]
          /\ deadline <= s + Z.of_N d
                         + timer_delay (verify_interval options)).
Proof.
  intros r deadline.
  destruct (verifyPromise_sound W verify options i st)
    as (p & q & Hlog & Hshape & Hr).
  fold r in Hlog, Hr. fold deadline in Hshape.
  pose proof (timer_delay_pos (timeout_ms options)) as Hpos.
  exists p. split; [exact Hlog |]. split; [| split].
  - split.
    + intros Ht. rewrite Hr in Ht.
      pose proof (poll_outcome_logged _ _ _ _ _ _ Hshape) as Hl.
      destruct q as [[|] | e | |]; try discriminate. exact Hl.
    + intros (s & d & Hin).
      destruct (poll_decisive _ _ _ _ _ _ Hshape _ _ _ _ Hin) as [_ Hq];
        [discriminate |].
      rewrite Hr, Hq. reflexivity.
  - intros j s d res Hin.
    eapply poll_window; [exact Hshape | unfold deadline; lia | exact Hin].
  - intros Hf. rewrite Hr in Hf.
    assert (Hq : q = Ret false) by (destruct q; congruence).
    subst q. eapply poll_unconfirmed_last. exact Hshape.
Qed.

(** A poll still pending when the timeout elapses confirms the attempt:
    the verifier takes 500 ms against a budget of 100 ms. *)
Lemma pending_poll_beats_timeout_witness :
  let r := verifyPromise nat slow_true (policy 1 100 50 100 None) 0
             (start nat O 0) in
  In (VerifyCall 0 0 500 (Fulfilled true)) (log (snd r))
  /\ 0 + timer_delay 100 <= 0 + 500
  /\ fst r = Ret true.
Proof.
  destruct (pending_poll_beats_timeout nat slow_true
              (policy 1 100 50 100 None) 0 (start nat O 0))
    as (p & Hlog & [_ Hconf] & _).
  assert (Hp : p = [VerifyCall 0 0 500 (Fulfilled true)]).
  { cbn [start log app] in Hlog. rewrite <- Hlog. reflexivity. }
  split; [in_log |]. split; [vm_compute; discriminate |].
  apply Hconf. exists 0, 500%N. rewrite Hp. now left.
Defined.


(** C9: a call never settles exactly when one of its polls threw; that
    poll is then the last entry of the log (no wait, no further attempt,
    nothing thrown to the caller).  With a verifier that never throws the
    call returns or throws. *)
Theorem throwing_verify_never_settles W action verify options w t :
  let r := reliableAction W action verify options (start W w t) in
  (fst r = Pending <->
   exists i s d e, In (VerifyCall i s d (Rejected e)) (log (snd r)))
  /\ (forall i s d e,
        In (VerifyCall i s d (Rejected e)) (log (snd r)) ->
        exists pre, log (snd r) = pre ++ [VerifyCall i s d (Rejected e)])
  /\ ((forall w t e, fst (observed (verify w t)) <> Rejected e) ->
      fst r = Ret tt \/ exists e, fst r = Throw e).
Proof.
  intros r.
  destruct (reliableAction_sound W action verify options w t) as [Hs Hg].
  fold r in Hs, Hg.
  assert (Hthrown : forall i s d e,
             In (VerifyCall i s d (Rejected e)) (log (snd r)) ->
             (exists pre, log (snd r) = pre ++ [VerifyCall i s d (Rejected e)])
             /\ fst r = Pending).
  { intros i s d e Hin.
    destruct (run_decisive _ _ _ _ _ _ _ _ Hs Hin) as (Hl & Hr & _);
      [discriminate |].
    now split. }
  assert (Hpending : fst r = Pending ->
             exists i s d e, In (VerifyCall i s d (Rejected e)) (log (snd r))).
  { intros Hp. rewrite Hp in Hs. eapply run_pending_logged; eassumption. }
  split; [split; [exact Hpending |] |].
  - intros (i & s & d & e & Hin). now apply Hthrown in Hin.
  - split; [intros i s d e Hin; now apply Hthrown in Hin |].
    intros Hnever.
    pose proof (run_outcome _ _ _ _ Hs) as Hfuel.
    destruct (fst r) as [[] | e | |] eqn:Er; eauto; [| congruence].
    exfalso. destruct (Hpending eq_refl) as (i & s & d & e & Hin).
    rewrite Forall_forall in Hg. destruct (Hg _ Hin) as [w' Hw'].
    apply (Hnever w' s e). now rewrite Hw'.
Qed.

(** A verifier that throws on its first poll: one action invocation, one
    poll, and the call hangs. *)
Lemma throwing_verify_never_settles_witness :
  let r := reliableAction nat steady_action throwing_verify
             (policy 3 10 5 20 None) (start nat O 0) in
  In (VerifyCall 0 50 0 (Rejected (Raised 99))) (log (snd r))
  /\ fst r = Pending
  /\ action_calls (log (snd r)) = 1%nat.
Proof.
  destruct (throwing_verify_never_settles nat steady_action throwing_verify
              (policy 3 10 5 20 None) O 0) as ([_ Hhang] & _).
  split; [in_log |]. split; [| reflexivity].
  apply Hhang. exists 0, 50, 0%N, (Raised 99). in_log.
Defined.

(** C10: with [maxAttempts] zero or negative, a call invokes neither
    closure, lets no time pass, and throws the new error built from the
    action's name and the given attempt count. *)
Theorem no_attempt_without_positive_max_attempts
        W action verify options (st : machine W) :
  max_attempts options <= 0 ->
  reliableAction W action verify options st
  = (Throw (NewErrorFrom [Text "Failed to perform ";
                          Text (action_name options);
                          Text " after ";
                          Number (max_attempts options);
                          Text " attempts"]), st).
Proof.
  intros Hm. unfold reliableAction.
  now rewrite for_loop_exhausted by lia.
Qed.

Lemma no_attempt_without_positive_max_attempts_witness :
  max_attempts (policy (-2) 10 5 20 (Some "check"%string)) <= 0
  /\ reliableAction nat steady_action always_true
       (policy (-2) 10 5 20 (Some "check"%string)) (start nat O 0)
     = (Throw (NewErrorFrom [Text "Failed to perform "; Text "check";
                             Text " after "; Number (-2); Text " attempts"]),
        start nat O 0).
Proof.
  assert (Hm : max_attempts (policy (-2) 10 5 20 (Some "check"%string)) <= 0)
    by (cbn; lia).
  split; [exact Hm |].
  exact (no_attempt_without_positive_max_attempts nat steady_action
           always_true (policy (-2) 10 5 20 (Some "check"%string))
           (start nat O 0) Hm).
Defined.

End ReliableClaims.

(** ** Properties of [waitFor] *)

Module PollingFacts.
Import Polling RuntimeFacts.

Lemma last_thrown_quiet (l : list event) init :
  (forall ev, In ev l -> is_throw ev = false) ->
  last_thrown l init = init.
Proof.
  revert init. induction l as [| ev l IH]; intros init Hq; [reflexivity |].
  unfold last_thrown in *. cbn [fold_left].
  assert (Hev : is_throw ev = false) by (apply Hq; now left).
  destruct ev as [t d [v | e] | ms]; try discriminate;
    apply IH; intros ev' Hin; apply Hq; now right.
Qed.

Lemma last_thrown_after pre s d e post init :
  (forall ev, In ev post -> is_throw ev = false) ->
  last_thrown (pre ++ ProbeCall s d (Rejected e) :: post) init = e.
Proof.
  intros Hq. unfold last_thrown. rewrite fold_left_app. cbn [fold_left].
  now apply last_thrown_quiet.
Qed.

Section Soundness.

Variable W : Type.
Variable cb : W -> Z -> settled jsval * N * W.

Local Abbreviation loop := (loop W cb).
Local Abbreviation genuine := (genuine W cb).
Local Abbreviation settle := (settle W).
Local Abbreviation fire := (fire W).

Lemma loop_step fuel endTime lastError (st : machine W) :
  now st < endTime ->
  loop (S fuel) endTime lastError st =
  match cb (world st) (now st) with
  | (Fulfilled v, d, w') =>
      if truthy v then (Ret v, settle st d w' (Fulfilled v))
      else loop fuel endTime lastError
                (fire (settle st d w' (Fulfilled v)) 100)
  | (Rejected e, d, w') =>
      loop fuel endTime e (fire (settle st d w' (Rejected e)) 100)
  end.
Proof.
  intros Hlt. apply Z.ltb_lt in Hlt.
  cbn [Polling.loop]. unfold bind at 1. unfold date_now at 1.
  rewrite Hlt. unfold bind, try_catch, call_cb, await_timer, ret.
  destruct (cb (world st) (now st)) as [[[v | e] d] w'];
    [destruct (truthy v) |]; reflexivity.
Qed.

Lemma loop_deadline fuel endTime lastError (st : machine W) :
  endTime <= now st ->
  loop fuel endTime lastError st = (Throw lastError, st).
Proof.
  intros Hge. apply Z.ltb_ge in Hge.
  destruct fuel; cbn [Polling.loop]; unfold bind, date_now;
    rewrite Hge; reflexivity.
Qed.

Lemma loop_sound fuel : forall endTime lastError (st : machine W),
  endTime - now st <= Z.of_nat fuel ->
  exists l,
    log (snd (loop fuel endTime lastError st)) = log st ++ l
    /\ wait_shape endTime (now st) lastError l
         (fst (loop fuel endTime lastError st))
    /\ Forall genuine l.
Proof.
  induction fuel as [| fuel IH]; intros endTime lastError st Hfuel.
  - rewrite loop_deadline by lia. exists []. rewrite app_nil_r.
    repeat split; [constructor; lia | constructor].
  - destruct (Z.lt_ge_cases (now st) endTime) as [Hlt | Hge].
    + rewrite loop_step by exact Hlt.
      destruct (cb (world st) (now st)) as [[r d] w'] eqn:Ecb.
      assert (Hgen : genuine (ProbeCall (now st) d r)).
      { exists (world st). unfold observed. now rewrite Ecb. }
      assert (Hnext : forall lastError',
                 exists l,
                   log (snd (loop fuel endTime lastError'
                                  (fire (settle st d w' r) 100)))
                   = log st ++ ProbeCall (now st) d r :: TimerWait 100 :: l
                   /\ wait_shape endTime (now st + Z.of_N d + 100)
                        lastError' l
                        (fst (loop fuel endTime lastError'
                                   (fire (settle st d w' r) 100)))
                   /\ Forall genuine l).
      { intros lastError'.
        destruct (IH endTime lastError' (fire (settle st d w' r) 100))
          as (l & Hlog & Hshape & Hg).
        { cbn. change (timer_delay 100) with 100. lia. }
        exists l. split; [| split; [exact Hshape | exact Hg]].
        rewrite Hlog. cbn. now rewrite <- !app_assoc. }
      destruct r as [v | e]; [destruct (truthy v) eqn:Ev |].
      * exists [ProbeCall (now st) d (Fulfilled v)].
        repeat split; [now constructor | now constructor].
      * destruct (Hnext lastError) as (l & Hlog & Hshape & Hg).
        exists (ProbeCall (now st) d (Fulfilled v) :: TimerWait 100 :: l).
        split; [exact Hlog |].
        split; [now constructor | repeat constructor; assumption].
      * destruct (Hnext e) as (l & Hlog & Hshape & Hg).
        exists (ProbeCall (now st) d (Rejected e) :: TimerWait 100 :: l).
        split; [exact Hlog |].
        split; [now constructor | repeat constructor; assumption].
    + rewrite loop_deadline by exact Hge. exists []. rewrite app_nil_r.
      repeat split; [constructor; lia | constructor].
Qed.

Variable options : WaitOptions.

Local Abbreviation waitFor := (waitFor W cb options).

Lemma waitFor_sound (w : W) (t : Z) :
  let r := waitFor (start W w t) in
  wait_shape (t + timeout_ms options) t (fallback options)
             (log (snd r)) (fst r)
  /\ Forall genuine (log (snd r)).
Proof.
  cbn zeta. unfold Polling.waitFor, bind, date_now. cbn [start now].
  destruct (loop_sound (Z.to_nat (timeout_ms options))
              (t + timeout_ms options) (fallback options) (start W w t))
    as (l & Hlog & Hshape & Hg); [cbn; lia |].
  cbn [start log now app] in Hlog, Hshape.
  rewrite Hlog. now split.
Qed.

End Soundness.

Section Shape.

Variable W : Type.
Variable cb : W -> Z -> settled jsval * N * W.

(** What a thrown value is, given the log. *)
Lemma wait_shape_thrown endTime t lastError l r :
  wait_shape endTime t lastError l r ->
  forall e, r = Throw e ->
    e = last_thrown l lastError
    /\ forall ev, In ev l -> is_truthy_return ev = false.
Proof.
  induction 1 as [t le Hge | t le d v Hlt Hv | t le d v rest r Hlt Hv Hrest IH
                  | t le d e' rest r Hlt Hrest IH]; intros e Hr.
  - injection Hr as <-. split; [reflexivity | intros ev []].
  - discriminate.
  - destruct (IH _ Hr) as [-> Hq]. split; [reflexivity |].
    intros ev [<- | [<- | Hin]]; [exact Hv | reflexivity | now apply Hq].
  - destruct (IH _ Hr) as [-> Hq]. split; [reflexivity |].
    intros ev [<- | [<- | Hin]]; [reflexivity | reflexivity | now apply Hq].
Qed.

Lemma wait_shape_returned endTime t lastError l r :
  wait_shape endTime t lastError l r ->
  forall v, r = Ret v ->
    truthy v = true
    /\ exists pre s d, l = pre ++ [ProbeCall s d (Fulfilled v)].
Proof.
  induction 1 as [t le Hge | t le d v Hlt Hv | t le d v rest r Hlt Hv Hrest IH
                  | t le d e' rest r Hlt Hrest IH]; intros v' Hr.
  - discriminate.
  - injection Hr as <-. split; [exact Hv |]. now exists [], t, d.
  - destruct (IH _ Hr) as [Hv' (pre & s & d' & ->)]. split; [exact Hv' |].
    now exists (ProbeCall t d (Fulfilled v) :: TimerWait 100 :: pre), s, d'.
  - destruct (IH _ Hr) as [Hv' (pre & s & d' & ->)]. split; [exact Hv' |].
    now exists (ProbeCall t d (Rejected e') :: TimerWait 100 :: pre), s, d'.
Qed.

Lemma wait_shape_settles endTime t lastError l r :
  wait_shape endTime t lastError l r ->
  (exists v, r = Ret v) \/ (exists e, r = Throw e).
Proof. induction 1; eauto. Qed.

(** When every call of the probe rejected, the call ends after the
    wait that follows the last of them and throws what it threw. *)
Lemma wait_shape_all_thrown endTime t lastError l r :
  wait_shape endTime t lastError l r ->
  (forall ev, In ev l -> is_throw ev = true \/ ev = TimerWait 100) ->
  (l = [] /\ r = Throw lastError /\ endTime <= t)
  \/ exists pre s d e,
       l = pre ++ [ProbeCall s d (Rejected e); TimerWait 100]
       /\ r = Throw e.
Proof.
  induction 1 as [t le Hge | t le d v Hlt Hv | t le d v rest r Hlt Hv Hrest IH
                  | t le d e' rest r Hlt Hrest IH]; intros Hall.
  - left. now repeat split.
  - destruct (Hall _ (or_introl eq_refl)); discriminate.
  - destruct (Hall _ (or_introl eq_refl)); discriminate.
  - right. destruct IH as [(-> & -> & _) | (pre & s & d' & e & -> & ->)].
    + intros ev Hin. apply Hall. now do 2 right.
    + now exists [], t, d, e'.
    + now exists (ProbeCall t d (Rejected e') :: TimerWait 100 :: pre),
        s, d', e.
Qed.

End Shape.

End PollingFacts.

Module PollingClaims.
Import Polling RuntimeFacts PollingFacts ProbeScenarios.

(** C6: a call of [waitFor] returns or throws.  It throws exactly when no
    call of the probe returned a truthy value before the deadline; the
    value thrown is then the one thrown by the most recent throwing call
    of the probe, and the error built from the fallback message when no
    call threw.  With a probe that always throws and a positive timeout,
    the call throws what the last call of the probe threw. *)
Theorem last_error_or_fallback W cb options w t :
  let r := waitFor W cb options (start W w t) in
  let l := log (snd r) in
  ((exists e, fst r = Throw e) <->
   (forall ev, In ev l -> is_truthy_return ev = false))
  /\ ((exists v, fst r = Ret v) \/ (exists e, fst r = Throw e))
  /\ (forall e, fst r = Throw e ->
        ((forall ev, In ev l -> is_throw ev = false) ->
         e = NewError (or_default (errorMessage options) EmptyString))
        /\ (forall pre s d e' post,
              l = pre ++ ProbeCall s d (Rejected e') :: post ->
              (forall ev, In ev post -> is_throw ev = false) ->
              e = e'))
  /\ ((forall w t, exists e, fst (observed (cb w t)) = Rejected e) ->
      0 < timeout_ms options ->
      exists pre s d e,
        l = pre ++ [ProbeCall s d (Rejected e); TimerWait 100]
        /\ fst r = Throw e).
Proof.
  intros r l.
  destruct (waitFor_sound W cb options w t) as [Hs Hg].
  fold r in Hs, Hg. fold l in Hs, Hg.
  split; [| split; [| split]].
  - split.
    + intros [e He]. now destruct (wait_shape_thrown _ _ _ _ _ Hs _ He).
    + intros Hq. destruct (wait_shape_settles _ _ _ _ _ Hs) as [[v Hv] | He];
        [| exact He].
      destruct (wait_shape_returned _ _ _ _ _ Hs _ Hv) as [Ht (pre & s & d & El)].
      specialize (Hq (ProbeCall s d (Fulfilled v))). cbn in Hq.
      rewrite Ht in Hq. discriminate Hq.
      rewrite El. apply in_or_app. right. now left.
  - eapply wait_shape_settles; eassumption.
  - intros e He. destruct (wait_shape_thrown _ _ _ _ _ Hs _ He) as [-> _].
    split.
    + intros Hq. now apply last_thrown_quiet.
    + intros pre s d e' post -> Hq. now apply last_thrown_after.
  - intros Hthrows Hpos.
    destruct (wait_shape_all_thrown _ _ _ _ _ Hs) as [(_ & _ & Hge) | Hlast].
    + intros ev Hin. rewrite Forall_forall in Hg. specialize (Hg _ Hin).
      destruct ev as [s d res | ms]; [left | ].
      * destruct Hg as [w' Hw']. destruct (Hthrows w' s) as [e He].
        rewrite Hw' in He. cbn in He. now subst res.
      * clear - Hs Hin. right.
        induction Hs; cbn [In] in Hin;
          repeat (destruct Hin as [Hin | Hin]; try discriminate);
          try contradiction; auto; now injection Hin as <-.
    + lia.
    + exact Hlast.
Qed.

(** The probe always throws, the timeout is 150 ms: two calls fit, and
    the second call's error is thrown, not the fallback. *)
Lemma last_error_or_fallback_witness :
  let r := waitFor nat throwing_probe
             (wait_options (Some "no mail"%string) 150) (start nat O 0) in
  (forall w t, exists e, fst (observed (throwing_probe w t)) = Rejected e)
  /\ 0 < timeout_ms (wait_options (Some "no mail"%string) 150)
  /\ fst r = Throw (Raised 1).
Proof.
  assert (Hthrows : forall (w : nat) (t : Z),
             exists e, fst (observed (throwing_probe w t)) = Rejected e)
    by (intros w t; now exists (Raised w)).
  assert (Hpos : 0 < timeout_ms (wait_options (Some "no mail"%string) 150))
    by (cbn; lia).
  destruct (last_error_or_fallback nat throwing_probe
              (wait_options (Some "no mail"%string) 150) O 0)
    as (_ & _ & _ & Hlast).
  destruct (Hlast Hthrows Hpos) as (pre & s & d & e & Hl & Hr).
  split; [exact Hthrows |]. split; [exact Hpos |]. reflexivity.
Defined.

(** C7, the part that fails: an interval of 100 ms below a timeout of
    150 ms leaves room for two calls only, so a value that comes with the
    third call is never seen; and a value that is defined but falsy
    ([0]) is not returned however long the timeout. *)
Lemma third_call_value_can_be_missed :
  (let r := waitFor nat (third_call_probe (JNumber 7))
              (wait_options (Some "gone"%string) 150) (start nat O 0) in
   100 < timeout_ms (wait_options (Some "gone"%string) 150)
   /\ fst r = Throw (NewError "gone")
   /\ log (snd r) = [ProbeCall 0 0 (Fulfilled JUndefined); TimerWait 100;
                     ProbeCall 100 0 (Fulfilled JUndefined); TimerWait 100])
  /\ (let r := waitFor nat (third_call_probe (JNumber 0))
                 (wait_options (Some "gone"%string) 5000) (start nat O 0) in
      fst r = Throw (NewError "gone")).
Proof. vm_compute. repeat split. Qed.

(** C7, amended: when the probe returns [undefined] on its first two
    calls and a truthy value on its third, and the third call starts
    before the deadline (the first two calls and the two waits of 100 ms
    take less than the timeout), the call returns that value after exactly
    three calls of the probe. *)
Theorem third_call_value_is_returned
        W cb options w t d1 w1 d2 w2 v d3 w3 :
  cb w t = (Fulfilled JUndefined, d1, w1) ->
  cb w1 (t + Z.of_N d1 + 100) = (Fulfilled JUndefined, d2, w2) ->
  cb w2 (t + Z.of_N d1 + 100 + Z.of_N d2 + 100) = (Fulfilled v, d3, w3) ->
  truthy v = true ->
  Z.of_N d1 + Z.of_N d2 + 200 < timeout_ms options ->
  let r := waitFor W cb options (start W w t) in
  fst r = Ret v
  /\ log (snd r)
     = [ProbeCall t d1 (Fulfilled JUndefined); TimerWait 100;
        ProbeCall (t + Z.of_N d1 + 100) d2 (Fulfilled JUndefined);
        TimerWait 100;
        ProbeCall (t + Z.of_N d1 + 100 + Z.of_N d2 + 100) d3 (Fulfilled v)].
Proof.
  intros H1 H2 H3 Hv Hfit r. subst r.
  unfold waitFor, bind, date_now. cbn [start now].
  destruct (Z.to_nat (timeout_ms options)) as [| [| [| fuel]]] eqn:Ef;
    try lia.
  rewrite loop_step by (cbn; lia). cbn [world now start]. rewrite H1.
  cbn [truthy].
  rewrite loop_step by (cbn; change (timer_delay 100) with 100; lia).
  cbn [world now fire settle start]. change (timer_delay 100) with 100.
  rewrite H2. cbn [truthy].
  rewrite loop_step by (cbn; change (timer_delay 100) with 100; lia).
  cbn [world now fire settle start]. change (timer_delay 100) with 100.
  rewrite H3, Hv. cbn. split; reflexivity.
Qed.

Lemma third_call_value_is_returned_witness :
  let r := waitFor nat (third_call_probe (JNumber 7))
             (wait_options None 201) (start nat O 0) in
  0 + 0 + 200 < timeout_ms (wait_options None 201)
  /\ fst r = Ret (JNumber 7).
Proof.
  assert (Hfit : Z.of_N 0 + Z.of_N 0 + 200
                 < timeout_ms (wait_options None 201)) by (cbn; lia).
  destruct (third_call_value_is_returned nat (third_call_probe (JNumber 7))
              (wait_options None 201) O 0 0%N 1%nat 0%N 2%nat (JNumber 7)
              0%N 3%nat eq_refl eq_refl eq_refl eq_refl Hfit)
    as [Hr _].
  split; [exact Hfit | exact Hr].
Defined.

End PollingClaims.

(** ** How long a call of [reliableAction] takes *)

Module ReliableTiming.
Import Reliable Trace RuntimeFacts ReliableShape TraceFacts.

Section Clock.

Variable W : Type.
Variable action : W -> Z -> settled unit * N * W.
Variable verify : W -> Z -> settled bool * N * W.
Variable options : RetryOptions.

Local Abbreviation poll := (poll W verify options).
Local Abbreviation attempt := (attempt W action verify options).
Local Abbreviation for_loop := (for_loop W action verify options).
Local Abbreviation budget := (timer_delay (timeout_ms options)).
Local Abbreviation period := (timer_delay (verify_interval options)).
Local Abbreviation pause := (timer_delay (action_interval options)).

(** The longest one iteration can take when every call of a closure
    settles within [D] ms: the action, the settle delay, the timeout, one
    more poll with its sleep, and the wait before the next iteration. *)
Definition attempt_span (D : Z) : Z :=
  2 * D + 50 + budget + period + pause.

(** The shortest an iteration whose action is fulfilled and whose polls
    all answer [false] can take, the wait before the next one apart. *)
Definition unconfirmed_span : Z := 50 + budget.

Lemma poll_clock D fuel : forall i deadline (st : machine W),
  (forall w t, Z.of_N (snd (observed (verify w t))) <= D) ->
  now st < deadline ->
  deadline - now st <= Z.of_nat fuel ->
  now st <= now (snd (poll fuel i deadline false st)) < deadline + D + period
  /\ (fst (poll fuel i deadline false st) = Ret false ->
      deadline <= now (snd (poll fuel i deadline false st))).
Proof.
  induction fuel as [| fuel IH]; intros i deadline st Hv Hlt Hfuel.
  - simpl in Hfuel. lia.
  - rewrite poll_step.
    pose proof (Hv (world st) (now st)) as Hd.
    pose proof (timer_delay_pos (verify_interval options)) as Hpos.
    destruct (verify (world st) (now st)) as [[r d] w'].
    unfold observed in Hd. cbn [fst snd] in Hd.
    destruct r as [[|] | e]; cbn zeta.
    + cbn [snd fst settle now]. split; [lia | discriminate].
    + set (st1 := fire W _ i PollGap _).
      assert (Hnow : now st1 = now st + Z.of_N d + period) by reflexivity.
      destruct (deadline <=? now st1) eqn:Ed.
      * rewrite poll_timed_out. apply Z.leb_le in Ed. cbn [fst snd].
        split; [lia | intros _; exact Ed].
      * apply Z.leb_gt in Ed.
        destruct (IH i deadline st1 Hv) as [Hb Hf]; [lia | lia |].
        split; [lia | exact Hf].
    + cbn [snd fst settle now]. split; [lia | discriminate].
Qed.

Lemma attempt_clock D i (st : machine W) :
  (forall w t, Z.of_N (snd (observed (action w t))) <= D) ->
  (forall w t, Z.of_N (snd (observed (verify w t))) <= D) ->
  now st <= now (snd (attempt i st)) <= now st + attempt_span D.
Proof.
  intros Ha Hv. rewrite attempt_step. cbn zeta. unfold attempt_span.
  pose proof (Ha (world st) (now st)) as Hd.
  pose proof (timer_delay_pos (timeout_ms options)) as Hb.
  pose proof (timer_delay_pos (verify_interval options)) as Hp.
  pose proof (timer_delay_pos (action_interval options)) as Hg.
  destruct (action (world st) (now st)) as [[r d] w'].
  unfold observed in Hd. cbn [fst snd] in Hd.
  assert (Hd0 : 0 <= Z.of_N d) by lia.
  destruct r as [u | e].
  - set (st1 := fire W _ i Settle 50).
    assert (Hnow : now st1 = now st + Z.of_N d + 50) by reflexivity.
    destruct (poll_clock D (Z.to_nat budget) i (now st1 + budget) st1 Hv)
      as [Hc _]; [lia | lia |].
    destruct (poll _ i _ false st1) as [[[|] | e | |] s];
      cbn [fst snd] in *; try lia.
    destruct (is_last options i); cbn [fire now]; lia.
  - destruct (is_last options i); cbn [fst snd fire settle now]; lia.
Qed.

Lemma for_loop_clock D fuel : forall i (st : machine W),
  (forall w t, Z.of_N (snd (observed (action w t))) <= D) ->
  (forall w t, Z.of_N (snd (observed (verify w t))) <= D) ->
  max_attempts options - i <= Z.of_nat fuel ->
  now st <= now (snd (for_loop fuel i st))
         <= now st + Z.max 0 (max_attempts options - i) * attempt_span D.
Proof.
  induction fuel as [| fuel IH]; intros i st Ha Hv Hfuel.
  - rewrite for_loop_exhausted by lia. cbn [snd].
    replace (Z.max 0 (max_attempts options - i)) with 0 by lia. lia.
  - destruct (Z.lt_ge_cases i (max_attempts options)) as [Hi | Hi].
    + rewrite for_loop_step by exact Hi.
      pose proof (attempt_clock D i st Ha Hv) as Hc.
      assert (Hspan : 0 <= attempt_span D) by lia.
      destruct (attempt i st) as [[[|] | e | |] s]; cbn [fst snd] in *;
        try nia.
      specialize (IH (i + 1) s Ha Hv). nia.
    + rewrite for_loop_exhausted by exact Hi. cbn [snd].
      replace (Z.max 0 (max_attempts options - i)) with 0 by lia. lia.
Qed.

Lemma poll_never_confirmed fuel : forall i deadline (st : machine W),
  (forall w t, fst (observed (verify w t)) = Fulfilled false) ->
  now st < deadline ->
  deadline - now st <= Z.of_nat fuel ->
  fst (poll fuel i deadline false st) = Ret false
  /\ deadline <= now (snd (poll fuel i deadline false st)).
Proof.
  induction fuel as [| fuel IH]; intros i deadline st Hv Hlt Hfuel.
  - simpl in Hfuel. lia.
  - rewrite poll_step.
    pose proof (Hv (world st) (now st)) as Hr.
    pose proof (timer_delay_pos (verify_interval options)) as Hpos.
    destruct (verify (world st) (now st)) as [[r d] w'].
    unfold observed in Hr. cbn [fst snd] in Hr. subst r. cbn zeta.
    set (st1 := fire W _ i PollGap _).
    assert (Hnow : now st1 = now st + Z.of_N d + period) by reflexivity.
    destruct (deadline <=? now st1) eqn:Ed.
    + rewrite poll_timed_out. apply Z.leb_le in Ed. now split.
    + apply Z.leb_gt in Ed. apply IH; [exact Hv | lia | lia].
Qed.

Lemma attempt_never_confirmed i (st : machine W) :
  (forall w t, fst (observed (action w t)) = Fulfilled tt) ->
  (forall w t, fst (observed (verify w t)) = Fulfilled false) ->
  fst (attempt i st) = Ret Next
  /\ now st + unconfirmed_span
       + (if is_last options i then 0 else pause)
     <= now (snd (attempt i st)).
Proof.
  intros Ha Hv. rewrite attempt_step. cbn zeta. unfold unconfirmed_span.
  pose proof (Ha (world st) (now st)) as Hr.
  pose proof (timer_delay_pos (timeout_ms options)) as Hb.
  destruct (action (world st) (now st)) as [[r d] w'].
  unfold observed in Hr. cbn [fst snd] in Hr. subst r.
  set (st1 := fire W _ i Settle 50).
  assert (Hnow : now st1 = now st + Z.of_N d + 50) by reflexivity.
  destruct (poll_never_confirmed (Z.to_nat budget) i (now st1 + budget) st1 Hv)
    as [Hf Hc]; [lia | lia |].
  destruct (poll _ i _ false st1) as [q s]. cbn [fst snd] in Hf, Hc.
  subst q. cbn [fst snd]. split; [reflexivity |].
  destruct (is_last options i); cbn [fire now]; lia.
Qed.

Lemma for_loop_never_confirmed fuel : forall i (st : machine W),
  (forall w t, fst (observed (action w t)) = Fulfilled tt) ->
  (forall w t, fst (observed (verify w t)) = Fulfilled false) ->
  max_attempts options - i <= Z.of_nat fuel ->
  i < max_attempts options ->
  now st + (max_attempts options - i) * unconfirmed_span
    + (max_attempts options - i - 1) * pause
  <= now (snd (for_loop fuel i st)).
Proof.
  induction fuel as [| fuel IH]; intros i st Ha Hv Hfuel Hi.
  - simpl in Hfuel. lia.
  - rewrite for_loop_step by exact Hi.
    destruct (attempt_never_confirmed i st Ha Hv) as [Hf Hc].
    destruct (attempt i st) as [q s]. cbn [fst snd] in Hf, Hc. subst q.
    unfold is_last in Hc.
    destruct (Z.eqb_spec i (max_attempts options - 1)) as [-> | Hne].
    + rewrite for_loop_exhausted by lia. cbn [snd]. lia.
    + specialize (IH (i + 1) s Ha Hv). lia.
Qed.

End Clock.

End ReliableTiming.

(** ** The polls of one iteration, and how a call can end *)

Module Polls.
Import Reliable Trace.

(** Start and duration of a poll of iteration [i]. *)
Definition poll_of (i : Z) (ev : event) : option (Z * N) :=
  match ev with
  | VerifyCall j s d _ => if j =? i then Some (s, d) else None
  | _ => None
  end.

(** The polls of iteration [i] in a log, in order. *)
Fixpoint polls_of (i : Z) (l : list event) : list (Z * N) :=
  match l with
  | [] => []
  | ev :: l' =>
      match poll_of i ev with
      | Some p => p :: polls_of i l'
      | None => polls_of i l'
      end
  end.

(** Each poll starts [gap] ms after the one before it settled. *)
Fixpoint evenly_spaced (gap : Z) (l : list (Z * N)) : Prop :=
  match l with
  | (s, d) :: (((s', _) :: _) as tl) =>
      s' = s + Z.of_N d + gap /\ evenly_spaced gap tl
  | _ => True
  end.

End Polls.

Module PollsFacts.
Import Reliable Trace RuntimeFacts ReliableShape TraceFacts Polls.

Lemma polls_of_app i a b :
  polls_of i (a ++ b) = polls_of i a ++ polls_of i b.
Proof.
  induction a as [| ev a IH]; [reflexivity |].
  cbn [app polls_of]. destruct (poll_of i ev); cbn [app]; now rewrite IH.
Qed.

Lemma polls_of_others i (l : list event) :
  Forall (fun ev => attempt_of ev <> i) l -> polls_of i l = [].
Proof.
  induction 1 as [| ev l Hev _ IH]; [reflexivity |].
  cbn [polls_of]. destruct ev as [j line | j t d r | j t d r | j k ms];
    cbn [poll_of]; try exact IH.
  cbn [attempt_of] in Hev. apply Z.eqb_neq in Hev. now rewrite Hev.
Qed.

Section Spacing.

Variable options : RetryOptions.

Local Abbreviation period := (timer_delay (verify_interval options)).

Lemma poll_shape_spaced i deadline t p r :
  poll_shape options i deadline t p r ->
  evenly_spaced period (polls_of i p)
  /\ exists d tl, polls_of i p = (t, d) :: tl.
Proof.
  induction 1 as [t d | t d e | t d Hd | t d t' rest r Ht' Hlt Hrest [IH Hhd]];
    cbn [polls_of poll_of]; rewrite ?Z.eqb_refl; cbn [polls_of poll_of evenly_spaced];
    try (split; [exact I | eauto]).
  destruct Hhd as (d' & tl & Etl). rewrite Etl in IH |- *.
  split; [| eauto]. cbn [evenly_spaced]. split; [exact Ht' | exact IH].
Qed.

Lemma attempt_shape_spaced i b r :
  attempt_shape options i b r -> evenly_spaced period (polls_of i b).
Proof.
  destruct 1 as [t d e Hl | t d e Hl | t d t0 p Hp | t d t0 p e Hp
                 | t d t0 p Hp]; cbn [polls_of poll_of]; try exact I;
    try (eapply poll_shape_spaced; eassumption).
  rewrite polls_of_app.
  replace (polls_of i (gap options i)) with (@nil (Z * N));
    [rewrite app_nil_r; eapply poll_shape_spaced; eassumption |].
  unfold gap. now destruct (is_last options i).
Qed.

Lemma run_shape_spaced i0 d r i :
  run_shape options i0 d r -> evenly_spaced period (polls_of i d).
Proof.
  intros H. destruct (entry_or_none d i) as [(ev & Hin & <-) | Hnone].
  - destruct (run_block _ _ _ _ H _ Hin)
      as (pre & b & post & rj & -> & _ & Hb & _ & Hpre & _ & Hpost & _).
    rewrite !polls_of_app.
    rewrite (polls_of_others _ pre), (polls_of_others _ post), app_nil_r.
    + cbn [app]. eapply attempt_shape_spaced; eassumption.
    + eapply Forall_impl; [| exact Hpost]. cbn. intros; lia.
    + eapply Forall_impl; [| exact Hpre]. cbn. intros; lia.
  - rewrite (polls_of_others _ _ Hnone). exact I.
Qed.

(** A call that returns has a poll answering [true] in its log. *)
Lemma run_returned_logged i0 d :
  run_shape options i0 d (Ret tt) ->
  exists i s dt, In (VerifyCall i s dt (Fulfilled true)) d.
Proof.
  remember (Ret tt) as r eqn:Er.
  induction 1 as [i Hi | i b Hi Hb | i b e Hi Hb | i b Hi Hb
                  | i b rest r Hi Hb Hrest IH]; try discriminate.
  - inversion Hb as [| | t d t0 p Hp | |]; subst.
    destruct (poll_outcome_logged _ _ _ _ _ _ Hp) as (s & dt & Hin).
    exists i, s, dt. now do 3 right.
  - destruct (IH Er) as (j & s & dt & Hin).
    exists j, s, dt. apply in_or_app. now right.
Qed.

(** A call that throws has used up its attempts, and throws either the
    error of exhaustion or what the action of the last attempt threw. *)
Lemma run_thrown i0 d e :
  run_shape options i0 d (Throw e) ->
  action_calls d = Z.to_nat (max_attempts options - i0)
  /\ (e = NewErrorFrom (exhausted_message options)
      \/ exists pre ta da,
           d = pre ++ [ActionCall (max_attempts options - 1) ta da
                         (Rejected e)]).
Proof.
  remember (Throw e) as r eqn:Er.
  induction 1 as [i Hi | i b Hi Hb | i b e' Hi Hb | i b Hi Hb
                  | i b rest r Hi Hb Hrest IH]; try discriminate.
  - injection Er as <-. split; [cbn; lia | now left].
  - injection Er as <-.
    inversion Hb as [t d e0 Hl | | | |]; subst.
    apply Z.eqb_eq in Hl. split.
    + unfold action_calls. cbn [filter is_action List.length]. lia.
    + right. exists [ConsoleDebug i (debug_line i)], t, d. now rewrite Hl.
  - destruct (IH Er) as [Hn Hlast].
    split.
    + rewrite action_calls_app, Hn, (attempt_action_calls _ _ _ _ Hb). lia.
    + destruct Hlast as [-> | (pre & ta & da & ->)]; [now left |].
      right. exists (b ++ pre), ta, da. now rewrite <- app_assoc.
Qed.

End Spacing.

End PollsFacts.

(** ** The log as a timeline *)

Module Timeline.
Import Reliable.

(** The instant at which an entry that begins at [t] is over; a call
    logged with another starting instant does not fit. *)
Definition step_time (t : Z) (ev : event) : option Z :=
  match ev with
  | ConsoleDebug _ _ => Some t
  | ActionCall _ s d _ | VerifyCall _ s d _ =>
      if s =? t then Some (t + Z.of_N d) else None
  | TimerWait _ _ ms => Some (t + timer_delay ms)
  end.

(** The instant at which a log that begins at [t] is over, when every
    entry begins as the one before it ends. *)
Fixpoint replay (t : Z) (l : list event) : option Z :=
  match l with
  | [] => Some t
  | ev :: l' =>
      match step_time t ev with
      | Some t' => replay t' l'
      | None => None
      end
  end.

End Timeline.

Module TimelineFacts.
Import Reliable Trace RuntimeFacts ReliableShape TraceFacts Timeline.

Lemma replay_app t a b :
  replay t (a ++ b)
  = match replay t a with Some m => replay m b | None => None end.
Proof.
  revert t. induction a as [| ev a IH]; intros t; [reflexivity |].
  cbn [app replay]. destruct (step_time t ev); [apply IH | reflexivity].
Qed.

Lemma replay_split t a b f :
  replay t (a ++ b) = Some f ->
  exists m, replay t a = Some m /\ replay m b = Some f.
Proof.
  rewrite replay_app. destruct (replay t a) as [m |]; [| discriminate].
  intros H. now exists m.
Qed.

Section Timely.

Variable W : Type.
Variable action : W -> Z -> settled unit * N * W.
Variable verify : W -> Z -> settled bool * N * W.
Variable options : RetryOptions.

Local Abbreviation poll := (poll W verify options).
Local Abbreviation attempt := (attempt W action verify options).
Local Abbreviation for_loop := (for_loop W action verify options).

(** The log of a machine accounts for all the time that has passed
    since [t0]. *)
Definition timely (t0 : Z) (st : machine W) : Prop :=
  replay t0 (log st) = Some (now st).

Lemma timely_entry t0 (st st' : machine W) ev :
  timely t0 st -> log st' = log st ++ [ev] ->
  step_time (now st) ev = Some (now st') -> timely t0 st'.
Proof.
  unfold timely. intros Ht Hl Hs.
  rewrite Hl, replay_app, Ht. cbn [replay]. now rewrite Hs.
Qed.

Lemma timely_call_verify t0 (st : machine W) i d w' r :
  timely t0 st ->
  timely t0 (settle W st d w' (VerifyCall i (now st) d r)).
Proof.
  intros Ht. eapply timely_entry; [exact Ht | reflexivity |].
  cbn [step_time]. now rewrite Z.eqb_refl.
Qed.

Lemma timely_call_action t0 (st : machine W) i d w' r :
  timely t0 st ->
  timely t0 (settle W st d w' (ActionCall i (now st) d r)).
Proof.
  intros Ht. eapply timely_entry; [exact Ht | reflexivity |].
  cbn [step_time]. now rewrite Z.eqb_refl.
Qed.

Lemma timely_fire t0 (st : machine W) i k ms :
  timely t0 st -> timely t0 (fire W st i k ms).
Proof.
  intros Ht. eapply timely_entry; [exact Ht | reflexivity | reflexivity].
Qed.

Lemma poll_timely t0 fuel : forall i deadline flag (st : machine W),
  timely t0 st -> timely t0 (snd (poll fuel i deadline flag st)).
Proof.
  induction fuel as [| fuel IH]; intros i deadline flag st Ht.
  - destruct flag; exact Ht.
  - destruct flag; [rewrite poll_timed_out; exact Ht |].
    rewrite poll_step.
    destruct (verify (world st) (now st)) as [[[[|] | e] d] w'];
      cbn zeta; cbn [snd].
    + now apply timely_call_verify.
    + apply IH. now apply timely_fire, timely_call_verify.
    + now apply timely_call_verify.
Qed.

Lemma attempt_timely t0 i (st : machine W) :
  timely t0 st -> timely t0 (snd (attempt i st)).
Proof.
  intros Ht. rewrite attempt_step. cbn zeta.
  set (st0 := {| world := world st; now := now st;
                 log := log st ++ [ConsoleDebug i (debug_line i)] |}).
  assert (Ht0 : timely t0 st0)
    by (eapply timely_entry; [exact Ht | reflexivity | reflexivity]).
  destruct (action (world st) (now st)) as [[[u | e] d] w'].
  - set (st1 := fire W _ i Settle 50).
    assert (Ht1 : timely t0 st1)
      by (apply timely_fire; exact (timely_call_action t0 st0 i d w' _ Ht0)).
    pose proof (poll_timely t0 (Z.to_nat (timer_delay (timeout_ms options)))
                  i (now st1 + timer_delay (timeout_ms options)) false st1 Ht1)
      as Hp.
    destruct (poll _ i _ false st1) as [[[|] | e | |] s]; cbn [snd] in *;
      try exact Hp.
    destruct (is_last options i); [exact Hp | now apply timely_fire].
  - pose proof (timely_call_action t0 st0 i d w' (Rejected e) Ht0) as Ht1.
    destruct (is_last options i); cbn [snd];
      [exact Ht1 | now apply timely_fire].
Qed.

Lemma for_loop_timely t0 fuel : forall i (st : machine W),
  timely t0 st -> timely t0 (snd (for_loop fuel i st)).
Proof.
  induction fuel as [| fuel IH]; intros i st Ht;
    destruct (Z.lt_ge_cases i (max_attempts options)) as [Hi | Hi];
    try (rewrite for_loop_exhausted by exact Hi; exact Ht).
  - cbn [Reliable.for_loop]. apply Z.ltb_lt in Hi. rewrite Hi. exact Ht.
  - rewrite for_loop_step by exact Hi.
    pose proof (attempt_timely t0 i st Ht) as Ha.
    destruct (attempt i st) as [[[|] | e | |] s]; cbn [snd] in *;
      try exact Ha.
    now apply IH.
Qed.

(** Every entry of a call's log begins at the instant the entry before
    it ends, and the log ends at the instant the call does. *)
Lemma reliableAction_timely (w : W) (t : Z) :
  replay t (log (snd (reliableAction W action verify options (start W w t))))
  = Some (now (snd (reliableAction W action verify options (start W w t)))).
Proof.
  unfold reliableAction. apply (for_loop_timely t). reflexivity.
Qed.

End Timely.

Section Shapes.

Variable options : RetryOptions.

Lemma poll_shape_head i deadline t p r :
  poll_shape options i deadline t p r ->
  exists d res rest, p = VerifyCall i t d res :: rest.
Proof. destruct 1; eauto. Qed.

Lemma poll_shape_no_action i deadline t p r j ta da ra :
  poll_shape options i deadline t p r -> ~ In (ActionCall j ta da ra) p.
Proof.
  induction 1; cbn [In]; intros Hin;
    repeat (destruct Hin as [Hin | Hin]; try discriminate); auto.
Qed.

(** In the block of an iteration, a fulfilled action is followed by the
    settle delay and a first poll. *)
Lemma attempt_fulfilled_then_polled i b r j t d :
  attempt_shape options i b r ->
  In (ActionCall j t d (Fulfilled tt)) b ->
  exists s dv res rest,
    b = ConsoleDebug i (debug_line i) :: ActionCall i t d (Fulfilled tt)
          :: TimerWait i Settle 50 :: VerifyCall i s dv res :: rest.
Proof.
  assert (Hcase : forall t1 d1 t0 p q tl,
             poll_shape options i (t0 + timer_delay (timeout_ms options))
                        t0 p q ->
             In (ActionCall j t d (Fulfilled tt))
                (ConsoleDebug i (debug_line i)
                   :: ActionCall i t1 d1 (Fulfilled tt)
                   :: TimerWait i Settle 50 :: p ++ tl) ->
             (forall ev, In ev tl -> ev <> ActionCall j t d (Fulfilled tt)) ->
             exists s dv res rest,
               ConsoleDebug i (debug_line i)
                 :: ActionCall i t1 d1 (Fulfilled tt)
                 :: TimerWait i Settle 50 :: p ++ tl
               = ConsoleDebug i (debug_line i)
                   :: ActionCall i t d (Fulfilled tt)
                   :: TimerWait i Settle 50 :: VerifyCall i s dv res :: rest).
  { intros t1 d1 t0 p q tl Hp Hin Htl.
    destruct (poll_shape_head _ _ _ _ _ Hp) as (dv & res & rest & Ep).
    destruct Hin as [[=] | [[= <- <- <-] | [[=] | Hin]]].
    - subst p. now exists t0, dv, res, (rest ++ tl).
    - exfalso. apply in_app_or in Hin as [Hin | Hin].
      + eapply poll_shape_no_action; eassumption.
      + now apply (Htl _ Hin). }
  destruct 1 as [t1 d1 e Hl | t1 d1 e Hl | t1 d1 t0 p Hp | t1 d1 t0 p e Hp
                 | t1 d1 t0 p Hp]; intros Hin.
  - destruct Hin as [[=] | [[=] | []]].
  - destruct Hin as [[=] | [[=] | [[=] | []]]].
  - rewrite <- (app_nil_r p) in Hin |- *.
    eapply Hcase; [exact Hp | exact Hin | intros ev []].
  - rewrite <- (app_nil_r p) in Hin |- *.
    eapply Hcase; [exact Hp | exact Hin | intros ev []].
  - eapply Hcase; [exact Hp | exact Hin |].
    intros ev Hev. apply in_gap in Hev as [_ ->]. discriminate.
Qed.

(** The action call of an iteration is the second entry of its block. *)
Lemma attempt_action_second i b r j t d ra :
  attempt_shape options i b r -> In (ActionCall j t d ra) b ->
  exists rest, b = ConsoleDebug i (debug_line i) :: ActionCall i t d ra :: rest.
Proof.
  destruct ra as [[] | e]; intros Hb Hin.
  - destruct (attempt_fulfilled_then_polled _ _ _ _ _ _ Hb Hin)
      as (s & dv & res & rest & ->). eauto.
  - destruct (attempt_action_rejected _ _ _ _ _ _ _ _ Hb Hin) as (-> & _).
    eauto.
Qed.

(** An iteration that falls through and is not the last ends with the
    wait before the next one. *)
Lemma attempt_next_ends_with_wait i b :
  attempt_shape options i b (Ret Next) -> is_last options i = false ->
  exists pre,
    b = pre ++ [TimerWait i ActionGap (action_interval options)].
Proof.
  inversion 1 as [| t d e Hl | | | t d t0 p Hp]; subst; intros Hl'.
  - now exists [ConsoleDebug i (debug_line i); ActionCall i t d (Rejected e)].
  - unfold gap. rewrite Hl'.
    exists (ConsoleDebug i (debug_line i) :: ActionCall i t d (Fulfilled tt)
              :: TimerWait i Settle 50 :: p).
    reflexivity.
Qed.

(** Every action call after the first iteration comes right after the
    wait that ends the iteration before and the console line of its own. *)
Lemma run_retry_after_wait i0 d r :
  run_shape options i0 d r ->
  forall j t dt ra,
    In (ActionCall j t dt ra) d -> i0 < j ->
    exists pre post,
      d = pre ++ TimerWait (j - 1) ActionGap (action_interval options)
            :: ConsoleDebug j (debug_line j)
            :: ActionCall j t dt ra :: post.
Proof.
  induction 1 as [i Hi | i b Hi Hb | i b e Hi Hb | i b Hi Hb
                  | i b rest r Hi Hb Hrest IH]; intros j t dt ra Hin Hj.
  - destruct Hin.
  - pose proof (attempt_tags _ _ _ _ Hb) as Ht. rewrite Forall_forall in Ht.
    specialize (Ht _ Hin). cbn in Ht. lia.
  - pose proof (attempt_tags _ _ _ _ Hb) as Ht. rewrite Forall_forall in Ht.
    specialize (Ht _ Hin). cbn in Ht. lia.
  - pose proof (attempt_tags _ _ _ _ Hb) as Ht. rewrite Forall_forall in Ht.
    specialize (Ht _ Hin). cbn in Ht. lia.
  - apply in_app_or in Hin as [Hin | Hin].
    { pose proof (attempt_tags _ _ _ _ Hb) as Ht. rewrite Forall_forall in Ht.
      specialize (Ht _ Hin). cbn in Ht. lia. }
    destruct (Z.eq_dec j (i + 1)) as [-> | Hne].
    + destruct (run_block _ _ _ _ Hrest _ Hin)
        as (pre & b' & post & rj & -> & Hin' & Hb' & Hlim & Hpre & _).
      cbn [attempt_of] in *.
      assert (Epre : pre = []).
      { destruct pre as [| ev pre]; [reflexivity | exfalso].
        pose proof (run_tags _ _ _ _ Hrest) as Ht.
        apply Forall_inv in Ht. apply Forall_inv in Hpre. lia. }
      subst pre. cbn [app].
      destruct (attempt_action_second _ _ _ _ _ _ _ Hb' Hin') as [tl ->].
      destruct (attempt_next_ends_with_wait _ _ Hb) as [pre ->];
        [apply Z.eqb_neq; lia |].
      exists pre, (tl ++ post).
      rewrite <- app_assoc. cbn [app]. now replace (i + 1 - 1) with i by lia.
    + destruct (IH _ _ _ _ Hin) as (pre & post & ->); [lia |].
      exists (b ++ pre), post. now rewrite <- app_assoc.
Qed.

End Shapes.

End TimelineFacts.

(** ** Further properties of [reliableAction] *)

Module ReliableExtras.
Import Reliable Trace RuntimeFacts ReliableShape TraceFacts ReliableTiming.
Import PollsFacts Timeline TimelineFacts Scenarios.

(** With a verifier that never throws, a call returns or throws. *)
Lemma settles_when_verify_never_throws W action verify options w t :
  (forall w t e, fst (observed (verify w t)) <> Rejected e) ->
  let r := reliableAction W action verify options (start W w t) in
  fst r = Ret tt \/ exists e, fst r = Throw e.
Proof.
  intros Hnever r.
  destruct (reliableAction_sound W action verify options w t) as [Hs Hg].
  fold r in Hs, Hg.
  pose proof (run_outcome _ _ _ _ Hs) as Hfuel.
  destruct (fst r) as [[] | e | |] eqn:Er; eauto; [| congruence].
  exfalso. destruct (run_pending_logged _ _ _ Hs) as (i & s & d & e & Hin).
  rewrite Forall_forall in Hg. destruct (Hg _ Hin) as [w' Hw'].
  apply (Hnever w' s e). now rewrite Hw'.
Qed.

(** X1: when every call of the action and of the verifier settles within
    [D] ms and the verifier never throws, a call settles: it returns or
    throws, and does so at most
    [maxAttempts * (2 D + 50 + timeout + verifyInterval + actionInterval)]
    ms after it began, the three delays counted as the timers take them
    ([timer_delay]: a delay outside [1 .. 2^31-1] lasts 1 ms). *)
Theorem call_is_over_in_time W action verify options D w t :
  (forall w t, Z.of_N (snd (observed (action w t))) <= D) ->
  (forall w t, Z.of_N (snd (observed (verify w t))) <= D) ->
  (forall w t e, fst (observed (verify w t)) <> Rejected e) ->
  let r := reliableAction W action verify options (start W w t) in
  (fst r = Ret tt \/ exists e, fst r = Throw e)
  /\ t <= now (snd r)
       <= t + Z.max 0 (max_attempts options)
              * (2 * D + 50 + timer_delay (timeout_ms options)
                 + timer_delay (verify_interval options)
                 + timer_delay (action_interval options)).
Proof.
  intros Ha Hv Hnever r.
  split; [exact (settles_when_verify_never_throws W action verify options
                   w t Hnever) |].
  subst r. unfold reliableAction.
  pose proof (for_loop_clock W action verify options D
                (Z.to_nat (max_attempts options)) 0 (start W w t) Ha Hv)
    as Hc.
  rewrite Z.sub_0_r in Hc. apply Hc. lia.
Qed.

Lemma call_is_over_in_time_witness :
  let r := reliableAction nat failing_action always_true
             (policy 3 10 5 20 None) (start nat O 0) in
  (fst r = Ret tt \/ exists e, fst r = Throw e)
  /\ 0 <= now (snd r) <= 273.
Proof.
  exact (call_is_over_in_time nat failing_action always_true
           (policy 3 10 5 20 None) 3 O 0
           (fun w t => Z.le_refl 3)
           (fun w t => ltac:(cbn; lia))
           (fun w t e => ltac:(discriminate))).
Defined.

(** X2: when the action is always fulfilled and the verifier always
    answers [false], the error of exhaustion is thrown no earlier than
    [maxAttempts * (50 + timer_delay timeout)
     + (maxAttempts - 1) * timer_delay actionInterval] ms after the call
    began, where [timer_delay] is the delay as the timer takes it (a
    value outside [1 .. 2^31-1] lasts 1 ms): every attempt gets its settle
    delay and the whole of its timer, and every attempt but the last its
    wait. *)
Theorem exhaustion_takes_every_timeout W action verify options w t :
  (forall w t, fst (observed (action w t)) = Fulfilled tt) ->
  (forall w t, fst (observed (verify w t)) = Fulfilled false) ->
  1 <= max_attempts options ->
  let r := reliableAction W action verify options (start W w t) in
  t + max_attempts options * (50 + timer_delay (timeout_ms options))
    + (max_attempts options - 1) * timer_delay (action_interval options)
  <= now (snd r).
Proof.
  intros Ha Hv Hm r. subst r. unfold reliableAction.
  pose proof (for_loop_never_confirmed W action verify options
                (Z.to_nat (max_attempts options)) 0 (start W w t) Ha Hv)
    as Hc.
  rewrite !Z.sub_0_r in Hc. apply Hc; lia.
Qed.

Lemma exhaustion_takes_every_timeout_witness :
  let r := reliableAction nat steady_action never_true
             (policy 2 10 5 20 None) (start nat O 0) in
  150 <= now (snd r).
Proof.
  exact (exhaustion_takes_every_timeout nat steady_action never_true
           (policy 2 10 5 20 None) O 0
           (fun w t => eq_refl) (fun w t => eq_refl)
           ltac:(cbn; lia)).
Defined.

(** X3: a call returns only upon confirmation: the last entry of its log
    is then a poll to which the verifier really answered [true], and the
    action was invoked once per attempt up to that one. *)
Theorem success_means_confirmed W action verify options w t :
  let r := reliableAction W action verify options (start W w t) in
  fst r = Ret tt ->
  exists pre i s d,
    log (snd r) = pre ++ [VerifyCall i s d (Fulfilled true)]
    /\ (exists w', observed (verify w' s) = (Fulfilled true, d))
    /\ action_calls (log (snd r)) = Z.to_nat (i + 1).
Proof.
  intros r Hr.
  destruct (reliableAction_sound W action verify options w t) as [Hs Hg].
  fold r in Hs, Hg. rewrite Hr in Hs.
  destruct (run_returned_logged _ _ _ Hs) as (i & s & d & Hin).
  destruct (run_decisive _ _ _ _ _ _ _ _ Hs Hin)
    as ([pre Hl] & _ & Hn & _); [discriminate |].
  exists pre, i, s, d. split; [exact Hl |]. split.
  - rewrite Forall_forall in Hg. exact (Hg _ Hin).
  - now rewrite Z.sub_0_r in Hn.
Qed.

Lemma success_means_confirmed_witness :
  let r := reliableAction (nat * nat) counting_action late_verify
             spec_policy (start (nat * nat) (O, O) 0) in
  fst r = Ret tt
  /\ exists pre i s d,
       log (snd r) = pre ++ [VerifyCall i s d (Fulfilled true)].
Proof.
  assert (Hr : fst (reliableAction (nat * nat) counting_action late_verify
                      spec_policy (start (nat * nat) (O, O) 0)) = Ret tt)
    by reflexivity.
  destruct (success_means_confirmed (nat * nat) counting_action late_verify
              spec_policy (O, O) 0 Hr) as (pre & i & s & d & Hl & _).
  split; [exact Hr |]. now exists pre, i, s, d.
Defined.

(** X4: a call never gives up early: when it throws, the action has been
    invoked exactly [maxAttempts] times (none when that is not positive),
    no poll has answered anything but [false], and the value thrown is
    either the error of exhaustion or the very value thrown by the action
    of the last attempt, whose call is then the last entry of the log. *)
Theorem error_only_after_all_attempts W action verify options w t e :
  let r := reliableAction W action verify options (start W w t) in
  fst r = Throw e ->
  action_calls (log (snd r)) = Z.to_nat (max_attempts options)
  /\ (forall i s d res,
        In (VerifyCall i s d res) (log (snd r)) -> res = Fulfilled false)
  /\ (e = NewErrorFrom [Text "Failed to perform ";
                        Text (action_name options);
                        Text " after ";
                        Number (max_attempts options);
                        Text " attempts"]
      \/ exists pre ta da,
           log (snd r)
           = pre ++ [ActionCall (max_attempts options - 1) ta da
                       (Rejected e)]).
Proof.
  intros r Hr.
  destruct (reliableAction_sound W action verify options w t) as [Hs _].
  fold r in Hs.
  assert (Hs' := Hs). rewrite Hr in Hs'.
  destruct (run_thrown _ _ _ _ Hs') as [Hn Hlast].
  rewrite Z.sub_0_r in Hn. split; [exact Hn |]. split; [| exact Hlast].
  intros i s d res Hin.
  destruct res as [[|] | e']; try reflexivity; exfalso;
    (destruct (run_decisive _ _ _ _ _ _ _ _ Hs Hin) as (_ & Hq & _);
     [discriminate | rewrite Hr in Hq; discriminate]).
Qed.

Lemma error_only_after_all_attempts_witness :
  let r := reliableAction nat failing_action always_true
             (policy 3 10 5 20 None) (start nat O 0) in
  fst r = Throw (Raised 2) /\ action_calls (log (snd r)) = 3%nat.
Proof.
  assert (Hr : fst (reliableAction nat failing_action always_true
                      (policy 3 10 5 20 None) (start nat O 0))
               = Throw (Raised 2)) by reflexivity.
  destruct (error_only_after_all_attempts nat failing_action always_true
              (policy 3 10 5 20 None) O 0 (Raised 2) Hr) as [Hn _].
  split; [exact Hr | exact Hn].
Defined.

(** X5: within an attempt the verifier is polled at a steady pace: each
    poll starts [verifyInterval] ms (as the timer takes it) after the poll
    before it settled, so a slow verifier stretches the period. *)
Theorem polls_keep_their_distance W action verify options w t i :
  let r := reliableAction W action verify options (start W w t) in
  Polls.evenly_spaced (timer_delay (verify_interval options))
    (Polls.polls_of i (log (snd r))).
Proof.
  intros r.
  destruct (reliableAction_sound W action verify options w t) as [Hs _].
  fold r in Hs. eapply PollsFacts.run_shape_spaced. exact Hs.
Qed.

(** X6: after an action that is fulfilled the call waits the settle
    delay and then polls: the first poll of the attempt starts exactly
    50 ms after the action settled. *)
Theorem first_poll_follows_settle_delay W action verify options w t i ta da :
  let r := reliableAction W action verify options (start W w t) in
  In (ActionCall i ta da (Fulfilled tt)) (log (snd r)) ->
  exists pre dv res post,
    log (snd r)
    = pre ++ ActionCall i ta da (Fulfilled tt)
        :: TimerWait i Settle 50
        :: VerifyCall i (ta + Z.of_N da + 50) dv res :: post.
Proof.
  intros r Hin.
  destruct (reliableAction_sound W action verify options w t) as [Hs _].
  pose proof (reliableAction_timely W action verify options w t) as Ht.
  fold r in Hs, Ht.
  destruct (run_block _ _ _ _ Hs _ Hin)
    as (pre & b & post & rj & El & Hinb & Hb & _).
  cbn [attempt_of] in Hb.
  destruct (attempt_fulfilled_then_polled _ _ _ _ _ _ _ Hb Hinb)
    as (s & dv & res & rest & ->).
  rewrite El in Ht |- *.
  apply replay_split in Ht as (m & _ & Ht).
  cbn [app replay step_time] in Ht.
  destruct (ta =? m) eqn:Ea; [| discriminate].
  change (timer_delay 50) with 50 in Ht.
  destruct (s =? m + Z.of_N da + 50) eqn:Es; [| discriminate].
  apply Z.eqb_eq in Ea, Es. subst m s.
  exists (pre ++ [ConsoleDebug i (debug_line i)]), dv, res, (rest ++ post).
  rewrite <- app_assoc. reflexivity.
Qed.

Lemma first_poll_follows_settle_delay_witness :
  let r := reliableAction nat steady_action never_true
             (policy 2 10 5 20 None) (start nat O 0) in
  In (ActionCall 0 0 0 (Fulfilled tt)) (log (snd r))
  /\ exists pre dv res post,
       log (snd r)
       = pre ++ ActionCall 0 0 0 (Fulfilled tt) :: TimerWait 0 Settle 50
           :: VerifyCall 0 50 dv res :: post.
Proof.
  assert (Hin : In (ActionCall 0 0 0 (Fulfilled tt))
                   (log (snd (reliableAction nat steady_action never_true
                                (policy 2 10 5 20 None) (start nat O 0)))))
    by (vm_compute; repeat (first [left; reflexivity | right])).
  split; [exact Hin |].
  exact (first_poll_follows_settle_delay nat steady_action never_true
           (policy 2 10 5 20 None) O 0 0 0 0%N Hin).
Defined.

(** X7: no attempt after the first begins without the wait: its action
    call comes right after the [actionInterval] wait that ends the attempt
    before and its own console line, and starts when that wait is over,
    whether the attempt before failed by its action or was not confirmed. *)
Theorem every_retry_follows_the_wait W action verify options w t i ta da ra :
  let r := reliableAction W action verify options (start W w t) in
  In (ActionCall i ta da ra) (log (snd r)) ->
  0 < i ->
  exists pre post m,
    log (snd r)
    = pre ++ TimerWait (i - 1) ActionGap (action_interval options)
        :: ConsoleDebug i (debug_line i)
        :: ActionCall i ta da ra :: post
    /\ Timeline.replay t pre = Some m
    /\ ta = m + timer_delay (action_interval options).
Proof.
  intros r Hin Hi.
  destruct (reliableAction_sound W action verify options w t) as [Hs _].
  pose proof (reliableAction_timely W action verify options w t) as Ht.
  fold r in Hs, Ht.
  destruct (run_retry_after_wait _ _ _ _ Hs _ _ _ _ Hin Hi)
    as (pre & post & El).
  rewrite El in Ht. apply replay_split in Ht as (m & Hm & Ht).
  cbn [replay step_time] in Ht.
  destruct (ta =? m + timer_delay (action_interval options)) eqn:Ea;
    [| discriminate].
  apply Z.eqb_eq in Ea. now exists pre, post, m.
Qed.

Lemma every_retry_follows_the_wait_witness :
  let r := reliableAction nat flaky_action always_true
             (policy 2 10 5 20 None) (start nat O 0) in
  In (ActionCall 1 10 0 (Fulfilled tt)) (log (snd r))
  /\ exists pre post m,
       log (snd r)
       = pre ++ TimerWait 0 ActionGap 10 :: ConsoleDebug 1 (debug_line 1)
           :: ActionCall 1 10 0 (Fulfilled tt) :: post
       /\ Timeline.replay 0 pre = Some m
       /\ 10 = m + timer_delay 10.
Proof.
  assert (Hin : In (ActionCall 1 10 0 (Fulfilled tt))
                   (log (snd (reliableAction nat flaky_action always_true
                                (policy 2 10 5 20 None) (start nat O 0)))))
    by (vm_compute; repeat (first [left; reflexivity | right])).
  split; [exact Hin |].
  exact (every_retry_follows_the_wait nat flaky_action always_true
           (policy 2 10 5 20 None) O 0 1 10 0%N (Fulfilled tt) Hin
           ltac:(lia)).
Defined.

End ReliableExtras.

(** ** Further properties of [waitFor] *)

Module ProbeCount.
Import Polling.

Definition is_probe (ev : event) : bool :=
  match ev with ProbeCall _ _ _ => true | TimerWait _ => false end.

(** Number of calls of the probe in a log. *)
Definition probe_calls (l : list event) : nat :=
  List.length (filter is_probe l).

End ProbeCount.

Module PollingMoreFacts.
Import Polling RuntimeFacts PollingFacts ProbeCount.

Section Shape.

Variable W : Type.
Variable cb : W -> Z -> settled jsval * N * W.

(** A call that returns ends with the first truthy answer of the probe,
    given by a call that started before the deadline. *)
Lemma wait_shape_first_truthy endTime t lastError l v :
  wait_shape endTime t lastError l (Ret v) ->
  truthy v = true
  /\ exists pre s d,
       l = pre ++ [ProbeCall s d (Fulfilled v)]
       /\ (forall ev, In ev pre -> is_truthy_return ev = false)
       /\ t <= s < endTime.
Proof.
  remember (Ret v) as r eqn:Er.
  induction 1 as [t le Hge | t le d v' Hlt Hv | t le d v' rest r Hlt Hv Hrest IH
                  | t le d e' rest r Hlt Hrest IH]; try discriminate.
  - injection Er as <-. split; [exact Hv |].
    exists [], t, d. split; [reflexivity |]. split; [intros ev [] | lia].
  - destruct (IH Er) as [Hv' (pre & s & d' & -> & Hq & Hs)].
    split; [exact Hv' |].
    exists (ProbeCall t d (Fulfilled v') :: TimerWait 100 :: pre), s, d'.
    split; [reflexivity |]. split; [| lia].
    intros ev [<- | [<- | Hin]]; [exact Hv | reflexivity | now apply Hq].
  - destruct (IH Er) as [Hv' (pre & s & d' & -> & Hq & Hs)].
    split; [exact Hv' |].
    exists (ProbeCall t d (Rejected e') :: TimerWait 100 :: pre), s, d'.
    split; [reflexivity |]. split; [| lia].
    intros ev [<- | [<- | Hin]]; [reflexivity | reflexivity | now apply Hq].
Qed.

(** Every call of the probe starts before the deadline, and the calls
    are at least 100 ms apart. *)
Lemma wait_shape_probes endTime t lastError l r :
  wait_shape endTime t lastError l r ->
  (forall s d res, In (ProbeCall s d res) l -> t <= s < endTime)
  /\ ((1 <= probe_calls l)%nat ->
      100 * (Z.of_nat (probe_calls l) - 1) < endTime - t).
Proof.
  assert (Hcount : forall ev rest,
             is_probe ev = true ->
             probe_calls (ev :: TimerWait 100 :: rest)
             = S (probe_calls rest)).
  { intros ev rest Hev. unfold probe_calls. cbn [filter is_probe].
    now rewrite Hev. }
  induction 1 as [t le Hge | t le d v Hlt Hv | t le d v rest r Hlt Hv Hrest IH
                  | t le d e' rest r Hlt Hrest IH].
  - split; [intros s d res [] | cbn; lia].
  - split; [| cbn; lia].
    intros s d' res [[= <- <- <-] | []]. lia.
  - destruct IH as [IHs IHn]. split.
    + intros s d' res [[= <- <- <-] | [[=] | Hin]]; [lia |].
      specialize (IHs _ _ _ Hin). lia.
    + rewrite Hcount by reflexivity. intros _.
      destruct (probe_calls rest) as [| n]; [cbn; lia |].
      specialize (IHn ltac:(lia)). lia.
  - destruct IH as [IHs IHn]. split.
    + intros s d' res [[= <- <- <-] | [[=] | Hin]]; [lia |].
      specialize (IHs _ _ _ Hin). lia.
    + rewrite Hcount by reflexivity. intros _.
      destruct (probe_calls rest) as [| n]; [cbn; lia |].
      specialize (IHn ltac:(lia)). lia.
Qed.

Local Abbreviation loop := (loop W cb).

(** When the loop is left: not before the deadline by throwing, and, with
    a probe that settles within [D] ms, less than one call and one wait
    after it. *)
Lemma loop_clock fuel : forall endTime lastError (st : machine W),
  endTime - now st <= Z.of_nat fuel ->
  now st <= now (snd (loop fuel endTime lastError st))
  /\ (forall e, fst (loop fuel endTime lastError st) = Throw e ->
                endTime <= now (snd (loop fuel endTime lastError st)))
  /\ (forall D, (forall w t, Z.of_N (snd (observed (cb w t))) <= D) ->
                now (snd (loop fuel endTime lastError st))
                <= Z.max (now st) (endTime + D + 99)).
Proof.
  induction fuel as [| fuel IH]; intros endTime lastError st Hfuel.
  - rewrite loop_deadline by lia. cbn [fst snd].
    repeat split; [lia | intros; lia | intros; lia].
  - destruct (Z.lt_ge_cases (now st) endTime) as [Hlt | Hge];
      [| rewrite loop_deadline by exact Hge; cbn [fst snd];
         repeat split; [lia | intros; lia | intros; lia]].
    rewrite loop_step by exact Hlt.
    assert (Hd : forall D, (forall w t, Z.of_N (snd (observed (cb w t))) <= D) ->
                   Z.of_N (snd (observed (cb (world st) (now st)))) <= D)
      by (intros D HD; apply HD).
    destruct (cb (world st) (now st)) as [[r d] w'].
    unfold observed in Hd. cbn [fst snd] in Hd.
    assert (Hnext : forall le',
               now st <= now (snd (loop fuel endTime le'
                                         (fire W (settle W st d w' r) 100)))
               /\ (forall e,
                     fst (loop fuel endTime le'
                               (fire W (settle W st d w' r) 100)) = Throw e ->
                     endTime <= now (snd (loop fuel endTime le'
                                               (fire W (settle W st d w' r) 100))))
               /\ (forall D,
                     (forall w t, Z.of_N (snd (observed (cb w t))) <= D) ->
                     now (snd (loop fuel endTime le'
                                    (fire W (settle W st d w' r) 100)))
                     <= Z.max (now st) (endTime + D + 99))).
    { intros le'.
      destruct (IH endTime le' (fire W (settle W st d w' r) 100))
        as (H1 & H2 & H3).
      { cbn [fire settle now]. change (timer_delay 100) with 100. lia. }
      cbn [fire settle now] in H1, H3. change (timer_delay 100) with 100 in *.
      split; [lia |]. split; [exact H2 |].
      intros D HD. specialize (H3 D HD). specialize (Hd D HD). lia. }
    destruct r as [v | e]; [destruct (truthy v) |].
    + cbn [fst snd settle now].
      split; [lia |]. split; [discriminate |].
      intros D HD. specialize (Hd D HD). lia.
    + apply Hnext.
    + apply Hnext.
Qed.

End Shape.

End PollingMoreFacts.

Module PollingExtras.
Import Polling RuntimeFacts PollingFacts ProbeCount PollingMoreFacts.
Import ProbeScenarios.

(** X8: when [waitFor] returns, the value is truthy and is the first
    truthy answer of the probe: it comes from the last call in the log,
    which started before the deadline, and no earlier call returned a
    truthy value; errors thrown by earlier calls are forgotten. *)
Theorem first_truthy_answer_is_returned W cb options w t v :
  let r := waitFor W cb options (start W w t) in
  fst r = Ret v ->
  truthy v = true
  /\ exists pre s d,
       log (snd r) = pre ++ [ProbeCall s d (Fulfilled v)]
       /\ (forall ev, In ev pre -> is_truthy_return ev = false)
       /\ t <= s < t + timeout_ms options
       /\ exists w', observed (cb w' s) = (Fulfilled v, d).
Proof.
  intros r Hr.
  destruct (waitFor_sound W cb options w t) as [Hs Hg].
  fold r in Hs, Hg. rewrite Hr in Hs.
  destruct (wait_shape_first_truthy _ _ _ _ _ Hs)
    as [Hv (pre & s & d & El & Hq & Ht)].
  split; [exact Hv |]. exists pre, s, d.
  repeat split; try assumption; try lia.
  rewrite Forall_forall in Hg. apply (Hg (ProbeCall s d (Fulfilled v))).
  rewrite El. apply in_or_app. right. now left.
Qed.

Lemma first_truthy_answer_is_returned_witness :
  let r := waitFor nat (third_call_probe (JNumber 7))
             (wait_options None 500) (start nat O 0) in
  fst r = Ret (JNumber 7)
  /\ exists pre s d, log (snd r) = pre ++ [ProbeCall s d (Fulfilled (JNumber 7))].
Proof.
  assert (Hr : fst (waitFor nat (third_call_probe (JNumber 7))
                      (wait_options None 500) (start nat O 0))
               = Ret (JNumber 7)) by reflexivity.
  destruct (first_truthy_answer_is_returned nat (third_call_probe (JNumber 7))
              (wait_options None 500) O 0 (JNumber 7) Hr)
    as (_ & pre & s & d & El & _).
  split; [exact Hr |]. now exists pre, s, d.
Defined.

(** X9: with a timeout of zero or less, [waitFor] does not call the probe
    at all and throws the fallback error at once, without any wait. *)
Theorem no_probe_without_positive_timeout W cb options (st : machine W) :
  timeout_ms options <= 0 ->
  waitFor W cb options st
  = (Throw (NewError (or_default (errorMessage options) EmptyString)), st).
Proof.
  intros Hto. unfold waitFor, bind, date_now.
  now rewrite loop_deadline by lia.
Qed.

Lemma no_probe_without_positive_timeout_witness :
  timeout_ms (wait_options (Some "late"%string) 0) <= 0
  /\ waitFor nat throwing_probe (wait_options (Some "late"%string) 0)
       (start nat O 0)
     = (Throw (NewError "late"), start nat O 0).
Proof.
  assert (Hto : timeout_ms (wait_options (Some "late"%string) 0) <= 0)
    by (cbn; lia).
  split; [exact Hto |].
  exact (no_probe_without_positive_timeout nat throwing_probe
           (wait_options (Some "late"%string) 0) (start nat O 0) Hto).
Defined.

(** X10: every call of the probe starts before the deadline, and since
    the calls are at least 100 ms apart, a call of [waitFor] that probes
    [n] times has [100 * (n - 1)] below its timeout: at most one probe per
    started 100 ms. *)
Theorem probes_fit_the_timeout W cb options w t :
  let r := waitFor W cb options (start W w t) in
  (forall s d res,
     In (ProbeCall s d res) (log (snd r)) -> t <= s < t + timeout_ms options)
  /\ ((1 <= probe_calls (log (snd r)))%nat ->
      100 * (Z.of_nat (probe_calls (log (snd r))) - 1) < timeout_ms options).
Proof.
  intros r.
  destruct (waitFor_sound W cb options w t) as [Hs _]. fold r in Hs.
  destruct (wait_shape_probes _ _ _ _ _ Hs) as [H1 H2].
  split; [exact H1 |]. intros Hn. specialize (H2 Hn). lia.
Qed.

(** X11: [waitFor] never throws before its deadline, and when every call
    of the probe settles within [D] ms it is over, whatever the outcome,
    less than [D + 100] ms after the deadline. *)
Theorem waitFor_ends_around_the_deadline W cb options w t :
  let r := waitFor W cb options (start W w t) in
  (forall e, fst r = Throw e -> t + timeout_ms options <= now (snd r))
  /\ (forall D, (forall w t, Z.of_N (snd (observed (cb w t))) <= D) ->
                now (snd r) <= Z.max t (t + timeout_ms options + D + 99)).
Proof.
  intros r. subst r. unfold waitFor, bind, date_now. cbn [start now].
  destruct (loop_clock W cb (Z.to_nat (timeout_ms options))
              (t + timeout_ms options) (fallback options) (start W w t))
    as (_ & H2 & H3); [cbn [start now]; lia |].
  split; [exact H2 | exact H3].
Qed.

End PollingExtras.

(** ** [reliableCheck] and [reliableSetInputFiles] *)

Module Adapters.
Import Reliable.

(** A property of an options object as the caller wrote it: left out,
    written with the value [undefined], or given a value. *)
Inductive prop (A : Type) : Type :=
| Absent
| Undefined
| Value (a : A).
Arguments Absent {A}.
Arguments Undefined {A}.
Arguments Value {A} a.

Record OptionsObject : Type := {
  given_maxAttempts : prop Z;
  given_actionInterval : prop Z;
  given_verifyInterval : prop Z;
  given_timeout : prop Z;
  given_actionName : prop string
}.

(** One property of [{ ...base, ...options }]: an own property of
    [options] wins, also when its value is [undefined]; what results is
    [None] when the property is missing or [undefined], which is all the
    destructuring defaults of [reliableAction] look at. *)
Definition spread_prop {A : Type} (base : option A) (p : prop A) : option A :=
  match p with
  | Absent => base
  | Undefined => None
  | Value a => Some a
  end.

(** [{ actionName: name, ...options }], where [options] itself may be
    [undefined]. *)
Definition with_action_name (name : string) (options : option OptionsObject)
  : RetryOptions :=
  match options with
  | None =>
      {| maxAttempts := None; actionInterval := None; verifyInterval := None;
         timeout := None; actionName := Some name |}
  | Some o =>
      {| maxAttempts := spread_prop None (given_maxAttempts o);
         actionInterval := spread_prop None (given_actionInterval o);
         verifyInterval := spread_prop None (given_verifyInterval o);
         timeout := spread_prop None (given_timeout o);
         actionName := spread_prop (Some name) (given_actionName o) |}
  end.

(** What the page function of [reliableSetInputFiles] sees of the
    element: its [files] list, [None] when the element has none. *)
Record element : Type := { files : option (list string) }.


(** The part of Playwright's [Locator] the adapters use, over a world [W]:
    each operation settles as the page decides.  [resolve] finds the
    element for [evaluate]. *)
Record Locator (W : Type) : Type := {
  check : W -> Z -> settled unit * N * W;
  isChecked : W -> Z -> settled bool * N * W;
  setInputFiles : list string -> W -> Z -> settled unit * N * W;
  resolve : W -> Z -> settled element * N * W
}.
Arguments check {W} _.
Arguments isChecked {W} _.
Arguments setInputFiles {W} _.
Arguments resolve {W} _.


Definition reliableCheck {W : Type} (locator : Locator W)
           (options : option OptionsObject) : M (machine W) unit :=
  reliableAction W (check locator) (isChecked locator)
                 (with_action_name "check" options).



(** The label and the count the error of exhaustion will show. *)
Definition label_of (name : string) (options : option OptionsObject) : string :=
  match options with
  | None => name
  | Some o =>
      match given_actionName o with
      | Absent => name
      | Undefined => "action"%string
      | Value s => s
      end
  end.

Definition attempts_of (options : option OptionsObject) : Z :=
  match options with
  | None => 3
  | Some o =>
      match given_maxAttempts o with
      | Value n => n
      | _ => 3
      end
  end.

(** A checkbox that never gets checked, and an input that holds two
    files whatever is asked of it. *)
Definition stuck_checkbox : Locator unit :=
  {| check := fun w t => (Fulfilled tt, 0%N, w);
     isChecked := fun w t => (Fulfilled false, 0%N, w);
     setInputFiles := fun _ w t => (Fulfilled tt, 0%N, w);
     resolve := fun w t => (Fulfilled {| files := None |}, 0%N, w) |}.


Definition only_attempts (n : Z) : OptionsObject :=
  {| given_maxAttempts := Value n; given_actionInterval := Absent;
     given_verifyInterval := Absent; given_timeout := Value 20;
     given_actionName := Undefined |}.

End Adapters.

Module ReturnFacts.
Import Reliable Trace RuntimeFacts ReliableShape.

Section LastPoll.

Variable W : Type.
Variable action : W -> Z -> settled unit * N * W.
Variable verify : W -> Z -> settled bool * N * W.
Variable options : RetryOptions.

Local Abbreviation poll := (poll W verify options).
Local Abbreviation attempt := (attempt W action verify options).
Local Abbreviation for_loop := (for_loop W action verify options).





End LastPoll.

End ReturnFacts.

Module AdaptersFacts.
Import Reliable Trace RuntimeFacts ReliableShape TraceFacts PollsFacts Adapters.

Lemma with_action_name_label name options :
  action_name (with_action_name name options) = label_of name options.
Proof.
  destruct options as [o |]; [| reflexivity].
  unfold action_name, label_of. cbn.
  now destruct (given_actionName o).
Qed.

Lemma with_action_name_attempts name options :
  max_attempts (with_action_name name options) = attempts_of options.
Proof.
  destruct options as [o |]; [| reflexivity].
  unfold max_attempts, attempts_of. cbn.
  now destruct (given_maxAttempts o).
Qed.

Lemma unconfirmed_log W action verify (l : list event) :
  (forall w t, fst (observed (action w t)) = Fulfilled tt) ->
  (forall w t, fst (observed (verify w t)) = Fulfilled false) ->
  Forall (genuine W action verify) l -> Forall unconfirmed_entry l.
Proof.
  intros Ha Hv Hg. eapply Forall_impl; [| exact Hg].
  intros [i line | i t d r | i t d r | i k ms]; cbn; try tauto.
  - intros [w Hw]. specialize (Ha w t). now rewrite Hw in Ha.
  - intros [w Hw]. specialize (Hv w t). now rewrite Hw in Hv.
Qed.

(** X12: [reliableCheck] on a checkbox whose [check] is fulfilled and
    whose [isChecked] keeps answering [false] throws the error of
    exhaustion labelled "check", unless the caller's options carry an
    [actionName] of their own: a given name replaces the label, and a
    property written as [undefined] brings back the label "action". *)
Theorem reliableCheck_names_its_error W (locator : Locator W) options w t :
  (forall w t, fst (observed (check locator w t)) = Fulfilled tt) ->
  (forall w t, fst (observed (isChecked locator w t)) = Fulfilled false) ->
  fst (reliableCheck locator options (start W w t))
  = Throw (NewErrorFrom [Text "Failed to perform ";
                         Text (label_of "check" options);
                         Text " after ";
                         Number (attempts_of options);
                         Text " attempts"]).
Proof.
  intros Hc Hv. unfold reliableCheck.
  destruct (reliableAction_sound W (check locator) (isChecked locator)
              (with_action_name "check" options) w t) as [Hs Hg].
  apply (unconfirmed_log _ _ _ _ Hc Hv) in Hg.
  destruct (run_all_unconfirmed _ _ _ _ Hs Hg) as (Hr & _).
  rewrite Hr. unfold exhausted_message.
  now rewrite with_action_name_label, with_action_name_attempts.
Qed.

Lemma reliableCheck_names_its_error_witness :
  fst (reliableCheck stuck_checkbox (Some (only_attempts 2))
         (start unit tt 0))
  = Throw (NewErrorFrom [Text "Failed to perform "; Text "action";
                         Text " after "; Number 2; Text " attempts"]).
Proof.
  exact (reliableCheck_names_its_error unit stuck_checkbox
           (Some (only_attempts 2)) tt 0
           (fun w t => eq_refl) (fun w t => eq_refl)).
Defined.



End AdaptersFacts.

(** ** The route of [prepareGitHubUser] *)

Module Route.

(** The fragment of regular expressions the route's pattern is written
    in: characters, sequence, and negative lookahead. *)
Inductive regex : Type :=
| REmpty
| RChar (c : Ascii.ascii)
| RSeq (r1 r2 : regex)
| RNegLookahead (r : regex).

(** Whether [r] matches at the start of [s] with a rest accepted by [k]. *)
Fixpoint matches (r : regex) (s : string) (k : string -> bool) : bool :=
  match r with
  | REmpty => k s
  | RChar c =>
      match s with
      | String c' s' => if Ascii.eqb c c' then k s' else false
      | EmptyString => false
      end
  | RSeq r1 r2 => matches r1 s (fun s' => matches r2 s' k)
  | RNegLookahead r' =>
      if matches r' s (fun _ => true) then false else k s
  end.

(** [r.test(s)]: a match starting anywhere in [s]. *)
Fixpoint test (r : regex) (s : string) : bool :=
  matches r s (fun _ => true)
  || match s with
     | EmptyString => false
     | String _ s' => test r s'
     end.

Fixpoint literal (s : string) : regex :=
  match s with
  | EmptyString => REmpty
  | String c s' => RSeq (RChar c) (literal s')
  end.

(** [/\/auth\/github(?!\/callback)/] *)
Definition github_route : regex :=
  RSeq (literal "/auth/github") (RNegLookahead (literal "/callback")).

Definition headers : Type := list (string * string).

Fixpoint header (name : string) (h : headers) : option string :=
  match h with
  | [] => None
  | (k, v) :: h' => if String.eqb k name then Some v else header name h'
  end.

(** [{ ...h, [name]: value }] *)
Fixpoint set_header (name value : string) (h : headers) : headers :=
  match h with
  | [] => [(name, value)]
  | (k, v) :: h' =>
      if String.eqb k name then (name, value) :: h'
      else (k, v) :: set_header name value h'
  end.

Section Handler.

(** [MOCK_CODE_GITHUB_HEADER] of [#app/utils/providers/constants.js]. *)
Variable MOCK_CODE_GITHUB_HEADER : string.

(** The headers a request leaves the page with: those the handler hands
    to [route.continue] when the route's pattern matches its URL, its own
    otherwise. *)
Definition continued_headers (testId url : string) (h : headers) : headers :=
  if test github_route url
  then set_header MOCK_CODE_GITHUB_HEADER testId h
  else h.

End Handler.

End Route.

Module RouteFacts.
Import Route.

Lemma matches_literal p : forall s k,
  matches (literal p) s k = true <->
  exists rest, s = (p ++ rest)%string /\ k rest = true.
Proof.
  induction p as [| c p IH]; intros s k; cbn [literal matches].
  - split; [intros H; now exists s | intros (rest & -> & H); exact H].
  - destruct s as [| c' s].
    + split; [discriminate | intros (rest & [=] & _)].
    + destruct (Ascii.eqb_spec c c') as [<- | Hne].
      * rewrite IH. split.
        -- intros (rest & -> & H). now exists rest.
        -- intros (rest & [= ->] & H). now exists rest.
      * split; [discriminate |]. intros (rest & [= E _] & _). congruence.
Qed.

Lemma test_anywhere r : forall s,
  test r s = true <->
  exists pre suf,
    s = (pre ++ suf)%string /\ matches r suf (fun _ => true) = true.
Proof.
  induction s as [| c s IH]; cbn [test].
  - rewrite orb_false_r. split.
    + intros H. now exists EmptyString, EmptyString.
    + intros (pre & suf & E & H).
      destruct pre; [cbn in E; now subst suf | discriminate].
  - rewrite orb_true_iff, IH. split.
    + intros [H | (pre & suf & -> & H)].
      * now exists EmptyString, (String c s).
      * now exists (String c pre), suf.
    + intros (pre & suf & E & H). destruct pre as [| c' pre].
      * left. cbn in E. now subst suf.
      * right. injection E as -> ->. now exists pre, suf.
Qed.

Lemma prefix_append p : forall s,
  String.prefix p s = true <-> exists rest, s = (p ++ rest)%string.
Proof.
  induction p as [| c p IH]; intros s.
  - split; [intros _; now exists s | intros _; now destruct s].
  - destruct s as [| c' s]; cbn [String.prefix];
      [split; [discriminate | intros (rest & [=])] |].
    destruct (Ascii.ascii_dec c c') as [<- | Hne].
    + rewrite IH. split; intros (rest & E); exists rest;
        [now subst s | now injection E].
    + split; [discriminate |]. intros (rest & [= E _]). congruence.
Qed.

Lemma header_set_same name value h :
  header name (set_header name value h) = Some value.
Proof.
  induction h as [| [k v] h IH]; cbn [set_header header].
  - now rewrite String.eqb_refl.
  - destruct (String.eqb k name) eqn:E; cbn [header].
    + now rewrite String.eqb_refl.
    + now rewrite E.
Qed.

Lemma header_set_other name value other h :
  other <> name ->
  header other (set_header name value h) = header other h.
Proof.
  intros Hne. induction h as [| [k v] h IH]; cbn [set_header header].
  - destruct (String.eqb_spec name other); [congruence | reflexivity].
  - destruct (String.eqb_spec k name) as [-> | Hk]; cbn [header].
    + destruct (String.eqb_spec name other); [congruence | reflexivity].
    + now rewrite IH.
Qed.

(** X14: the handler of [prepareGitHubUser] sees exactly the requests
    whose URL holds ["/auth/github"] somewhere not directly followed by
    ["/callback"].  Such a request goes on with the mock header set to
    the test's id and every other header as it was; any other request,
    the OAuth callback among them, keeps its headers untouched. *)
Theorem github_route_spares_the_callback mock testId url h :
  (test github_route url = true <->
   exists pre post,
     url = (pre ++ "/auth/github" ++ post)%string
     /\ String.prefix "/callback" post = false)
  /\ (test github_route url = true ->
      header mock (continued_headers mock testId url h) = Some testId
      /\ forall other, other <> mock ->
           header other (continued_headers mock testId url h)
           = header other h)
  /\ (test github_route url = false ->
      continued_headers mock testId url h = h).
Proof.
  split; [| split].
  - rewrite test_anywhere. unfold github_route. split.
    + intros (pre & suf & -> & H). cbn [matches] in H.
      apply matches_literal in H as (post & -> & H).
      exists pre, post. split; [reflexivity |].
      cbn [matches] in H.
      destruct (matches (literal "/callback") post (fun _ => true)) eqn:Em;
        [discriminate |].
      destruct (String.prefix "/callback" post) eqn:Ep; [| reflexivity].
      apply prefix_append in Ep as [rest ->].
      enough (matches (literal "/callback") ("/callback" ++ rest)
                      (fun _ => true) = true) by congruence.
      apply matches_literal. now exists rest.
    + intros (pre & post & -> & Hp).
      exists pre, ("/auth/github" ++ post)%string. split; [reflexivity |].
      cbn [matches]. apply matches_literal. exists post.
      split; [reflexivity |]. cbn [matches].
      destruct (matches (literal "/callback") post (fun _ => true)) eqn:Em;
        [| reflexivity].
      apply matches_literal in Em as (rest & -> & _).
      enough (String.prefix "/callback" ("/callback" ++ rest) = true)
        by congruence.
      apply prefix_append. now exists rest.
  - intros Ht. unfold continued_headers. rewrite Ht.
    split; [apply header_set_same |].
    intros other Hne. now apply header_set_other.
  - intros Ht. unfold continued_headers. now rewrite Ht.
Qed.

End RouteFacts.

(** ** [getOrInsertUser] and the [insertNewUser] fixture *)

Module Fixtures.

Record User : Type := {
  id : string;
  email : string;
  username : string;
  name : option string
}.

Record GetOrInsertUserOptions : Type := {
  given_id : option string;
  given_username : option string;
  given_password : option string;
  given_email : option string
}.

(** [if (id)] on a string that may be missing. *)
Definition truthy_string (s : option string) : bool :=
  match s with
  | Some s' => negb (String.eqb s' EmptyString)
  | None => false
  end.

Section Database.

(** The world behind [prisma], [createUser] of [./db-utils.ts] and
    [getPasswordHash] of [#app/utils/auth.server.ts], none of which is
    part of these sources: each is taken as it comes.  [UserData] is
    whatever [createUser] returns; only its [username] and [email] are
    read here. *)
Variable W UserData Hash : Type.
Variable ud_username : UserData -> string.
Variable ud_email : UserData -> string.
Variable createUser : W -> UserData * W.
Variable getPasswordHash : string -> W -> settled Hash * W.
Variable user_findUniqueOrThrow : string -> W -> settled User * W.

(** The [data] of [prisma.user.create]:
    [{ ...userData, email, username, roles, password }]. *)
Record CreateData : Type := {
  data_rest : UserData;
  data_email : string;
  data_username : string;
  data_password_hash : Hash
}.

Variable user_create : CreateData -> W -> settled User * W.
Variable user_delete : option string -> W -> settled unit * W.

Inductive event : Type :=
| FindUniqueOrThrow (key : string) (r : settled User)
| CreateUser
| GetPasswordHash (password : string) (r : settled Hash)
| Create (data : CreateData) (r : settled User)
| Delete (key : option string) (r : settled unit).

(** The world, the [userId] variable of the fixture, and what was asked
    of the database so far. *)
Record machine : Type := {
  world : W;
  userId : option string;
  log : list event
}.

Definition settle_as {A : Type} (r : settled A) (st : machine)
  : outcome A * machine :=
  match r with
  | Fulfilled a => (Ret a, st)
  | Rejected e => (Throw e, st)
  end.

Definition call_findUniqueOrThrow (key : string) : M machine User :=
  fun st =>
    let '(r, w') := user_findUniqueOrThrow key (world st) in
    settle_as r {| world := w'; userId := userId st;
                   log := log st ++ [FindUniqueOrThrow key r] |}.

Definition call_createUser : M machine UserData := fun st =>
  let '(u, w') := createUser (world st) in
  (Ret u, {| world := w'; userId := userId st;
             log := log st ++ [CreateUser] |}).

Definition call_getPasswordHash (password : string) : M machine Hash :=
  fun st =>
    let '(r, w') := getPasswordHash password (world st) in
    settle_as r {| world := w'; userId := userId st;
                   log := log st ++ [GetPasswordHash password r] |}.

Definition call_create (data : CreateData) : M machine User := fun st =>
  let '(r, w') := user_create data (world st) in
  settle_as r {| world := w'; userId := userId st;
                 log := log st ++ [Create data r] |}.

Definition call_delete (key : option string) : M machine unit := fun st =>
  let '(r, w') := user_delete key (world st) in
  settle_as r {| world := w'; userId := userId st;
                 log := log st ++ [Delete key r] |}.

Definition no_options : GetOrInsertUserOptions :=
  {| given_id := None; given_username := None; given_password := None;
     given_email := None |}.

Definition getOrInsertUser (options : option GetOrInsertUserOptions)
  : M machine User :=
  let o := or_default options no_options in
  if truthy_string (given_id o) then
    call_findUniqueOrThrow (or_default (given_id o) EmptyString)
  else
    userData <- call_createUser ;;
    let username := or_default (given_username o) (ud_username userData) in
    let password := or_default (given_password o) (ud_username userData) in
    let email := or_default (given_email o) (ud_email userData) in
    hash <- call_getPasswordHash password ;;
    call_create {| data_rest := userData; data_email := email;
                   data_username := username;
                   data_password_hash := hash |}.

(** The function the fixture hands to the test. *)
Definition insert_and_remember (options : option GetOrInsertUserOptions)
  : M machine User :=
  user <- getOrInsertUser options ;;
  (fun st => (Ret user, {| world := world st; userId := Some (id user);
                           log := log st |})).

(** A test that calls the function it was handed with these options, one
    call after the other, going on whatever a call gives. *)
Fixpoint test_body (calls : list (option GetOrInsertUserOptions))
  : M machine unit :=
  match calls with
  | [] => ret tt
  | options :: rest =>
      try_catch (insert_and_remember options ;; ret tt)
                (fun _ => ret tt) ;;
      test_body rest
  end.

(** [await prisma.user.delete({ where: { id: userId } }).catch(() => {})] *)
Definition teardown : M machine unit :=
  fun st => try_catch (call_delete (userId st)) (fun _ => ret tt) st.

Definition insertNewUser (calls : list (option GetOrInsertUserOptions))
  : M machine unit :=
  test_body calls ;; teardown.

Definition fresh (w : W) : machine :=
  {| world := w; userId := None; log := [] |}.

(** The users the database handed back, in order. *)
Fixpoint handed_out (l : list event) : list string :=
  match l with
  | [] => []
  | FindUniqueOrThrow _ (Fulfilled u) :: l'
  | Create _ (Fulfilled u) :: l' => id u :: handed_out l'
  | _ :: l' => handed_out l'
  end.

Definition is_delete (ev : event) : bool :=
  match ev with Delete _ _ => true | _ => false end.

End Database.

Arguments world {W UserData Hash} _.
Arguments userId {W UserData Hash} _.
Arguments log {W UserData Hash} _.
Arguments handed_out {UserData Hash} _.
Arguments is_delete {UserData Hash} _.

End Fixtures.

Module FixturesFacts.
Import Fixtures.

Section Database.

Variable W UserData Hash : Type.
Variable ud_username : UserData -> string.
Variable ud_email : UserData -> string.
Variable createUser : W -> UserData * W.
Variable getPasswordHash : string -> W -> settled Hash * W.
Variable user_findUniqueOrThrow : string -> W -> settled User * W.
Variable user_create : CreateData UserData Hash -> W -> settled User * W.
Variable user_delete : option string -> W -> settled unit * W.

Local Abbreviation machine := (machine W UserData Hash).
Local Abbreviation event := (event UserData Hash).
Local Abbreviation getOrInsertUser :=
  (getOrInsertUser W UserData Hash ud_username ud_email createUser
                   getPasswordHash user_findUniqueOrThrow user_create).
Local Abbreviation insert_and_remember :=
  (insert_and_remember W UserData Hash ud_username ud_email createUser
                       getPasswordHash user_findUniqueOrThrow user_create).
Local Abbreviation test_body :=
  (test_body W UserData Hash ud_username ud_email createUser
             getPasswordHash user_findUniqueOrThrow user_create).
Local Abbreviation teardown := (teardown W UserData Hash user_delete).
Local Abbreviation insertNewUser :=
  (insertNewUser W UserData Hash ud_username ud_email createUser
                 getPasswordHash user_findUniqueOrThrow user_create
                 user_delete).

Definition no_delete (l : list event) : Prop :=
  forallb (fun ev => negb (is_delete ev)) l = true.

(** The id the fixture holds after the calls of a log. *)
Definition remembered (l : list event) : option string :=
  last (map Some (handed_out l)) None.

Lemma handed_out_app (a b : list event) :
  handed_out (a ++ b) = handed_out a ++ handed_out b.
Proof.
  induction a as [| ev a IH]; [reflexivity |].
  cbn [app handed_out].
  destruct ev as [k [u | e] | | p r | data [u | e] | k r];
    cbn [app]; now rewrite IH.
Qed.

Lemma remembered_app_none (a b : list event) :
  handed_out b = [] -> remembered (a ++ b) = remembered a.
Proof.
  intros Hb. unfold remembered. now rewrite handed_out_app, Hb, app_nil_r.
Qed.

Lemma remembered_app_one (a b : list event) key :
  handed_out b = [key] -> remembered (a ++ b) = Some key.
Proof.
  intros Hb. unfold remembered.
  rewrite handed_out_app, Hb, map_app. cbn [map]. apply last_last.
Qed.

Lemma no_delete_app (a b : list event) :
  no_delete a -> no_delete b -> no_delete (a ++ b).
Proof.
  unfold no_delete. intros Ha Hb. now rewrite forallb_app, Ha, Hb.
Qed.

(** What one call of [getOrInsertUser] leaves behind. *)
Lemma getOrInsertUser_effect options (st : machine) :
  exists d,
    log (snd (getOrInsertUser options st)) = log st ++ d
    /\ userId (snd (getOrInsertUser options st)) = userId st
    /\ no_delete d
    /\ match fst (getOrInsertUser options st) with
       | Ret u => handed_out d = [id u]
       | Throw _ => handed_out d = []
       | _ => False
       end.
Proof.
  unfold Fixtures.getOrInsertUser.
  destruct (truthy_string (given_id (or_default options no_options))).
  - unfold call_findUniqueOrThrow.
    destruct (user_findUniqueOrThrow _ (world st)) as [[u | e] w'];
      cbn [settle_as fst snd log userId];
      eexists; repeat split; reflexivity.
  - unfold bind, call_createUser, call_getPasswordHash, call_create.
    destruct (createUser (world st)) as [ud w1]. cbn [world log userId].
    destruct (getPasswordHash _ w1) as [[h | e] w2];
      cbn [settle_as world log userId fst snd].
    + destruct (user_create _ w2) as [[u | e] w3];
        cbn [settle_as fst snd log userId]; rewrite <- !app_assoc;
        eexists; repeat split; reflexivity.
    + rewrite <- !app_assoc. eexists; repeat split; reflexivity.
Qed.

Definition tidy (st : machine) : Prop :=
  userId st = remembered (log st) /\ no_delete (log st).

Lemma insert_and_remember_tidy options (st : machine) :
  tidy st ->
  tidy (snd (insert_and_remember options st))
  /\ ((exists u, fst (insert_and_remember options st) = Ret u)
      \/ (exists e, fst (insert_and_remember options st) = Throw e)).
Proof.
  intros [Hid Hnd]. unfold Fixtures.insert_and_remember, bind.
  destruct (getOrInsertUser_effect options st) as (d & Hl & Hu & Hd & Hh).
  destruct (getOrInsertUser options st) as [[u | e | |] s];
    cbn [fst snd] in *; try contradiction.
  - split; [| left; eauto]. split; cbn [userId log].
    + rewrite Hl. symmetry. now apply remembered_app_one.
    + rewrite Hl. now apply no_delete_app.
  - split; [| right; eauto]. split.
    + rewrite Hu, Hl, Hid. symmetry. now apply remembered_app_none.
    + rewrite Hl. now apply no_delete_app.
Qed.

Lemma test_body_step options calls (st : machine) :
  test_body (options :: calls) st =
  match insert_and_remember options st with
  | (Ret _, s) => test_body calls s
  | (Throw _, s) => test_body calls s
  | (Pending, s) => (Pending, s)
  | (OutOfFuel, s) => (OutOfFuel, s)
  end.
Proof.
  cbn [Fixtures.test_body]. unfold bind, try_catch, ret.
  destruct (insert_and_remember options st) as [[u | e | |] s]; reflexivity.
Qed.

Lemma test_body_tidy calls : forall (st : machine),
  tidy st ->
  fst (test_body calls st) = Ret tt /\ tidy (snd (test_body calls st)).
Proof.
  induction calls as [| options calls IH]; intros st Ht; [now split |].
  rewrite test_body_step.
  destruct (insert_and_remember_tidy options st Ht) as [Ht' Hr].
  destruct (insert_and_remember options st) as [q s]. cbn [fst snd] in *.
  destruct Hr as [[u ->] | [e ->]]; now apply IH.
Qed.

Lemma teardown_effect (st : machine) :
  fst (teardown st) = Ret tt
  /\ exists res,
       log (snd (teardown st))
       = log st ++ [Delete UserData Hash (userId st) res].
Proof.
  unfold Fixtures.teardown, try_catch, call_delete.
  destruct (user_delete (userId st) (world st)) as [[[] | e] w'];
    cbn [settle_as ret fst snd log]; split; eauto.
Qed.

End Database.

(** X15: whatever the test asks of the function it is handed, and
    whatever the database answers, the teardown of [insertNewUser] is
    fulfilled (a failing delete is swallowed) and asks for exactly one
    delete, as the last thing it does: that of the user handed back by
    the last call that was fulfilled, and of no id at all when none was.
    Users handed back by earlier calls are not deleted. *)
Theorem teardown_deletes_the_last_user
        W UserData Hash ud_username ud_email createUser getPasswordHash
        user_findUniqueOrThrow user_create user_delete calls (w : W) :
  let r := insertNewUser W UserData Hash ud_username ud_email createUser
             getPasswordHash user_findUniqueOrThrow user_create user_delete
             calls (fresh W UserData Hash w) in
  fst r = Ret tt
  /\ exists pre res,
       log (snd r)
       = pre ++ [Delete UserData Hash
                   (last (map Some (handed_out pre)) None) res]
       /\ forallb (fun ev => negb (is_delete ev)) pre = true.
Proof.
  intros r. subst r. unfold insertNewUser, bind.
  destruct (test_body_tidy W UserData Hash ud_username ud_email createUser
              getPasswordHash user_findUniqueOrThrow user_create calls
              (fresh W UserData Hash w)) as [Hr [Hid Hnd]];
    [now split |].
  destruct (test_body _ _ _ _ _ _ _ _ _ calls _) as [q s].
  cbn [fst snd] in *. subst q.
  destruct (teardown_effect W UserData Hash user_delete s) as [Ht [res Hl]].
  split; [exact Ht |]. exists (log s), res. split; [| exact Hnd].
  rewrite Hl, Hid. reflexivity.
Qed.

End FixturesFacts.
